(** * Riepilogo Garanzie: the TXT-to-PDF summary pipeline of [app.py]

    The development embeds the functional core of [app.py]:
    - [ROW_RE] and [re.findall] (a greedy backtracking matcher in the style
      of the [sre] engine, over Latin-1 text);
    - [parse_txt]: column conversion, [drop_duplicates], [sort_values];
    - [build_pdf]'s totals, over a model of [decimal.Decimal] with the
      default context (precision 28) and [quantize];
    - [eur_fmt];
    - [process_file] and [main], with the console and the file store as an
      explicit state.

    Text read with [encoding="latin-1"] is a sequence of code points below
    256, that is a [list ascii].  Strings built by the program itself
    ([eur_fmt]) are kept as the UTF-8 bytes of the Python [str]. *)

From Stdlib Require Import Ascii String List ZArith NArith Bool Lia Arith.
From Stdlib Require Import Sorting.Sorted Sorting.Permutation QArith.
Import ListNotations.

Local Close Scope Q_scope.

Set Implicit Arguments.

(** ** Text *)

Definition text := list ascii.

Definition chars (s : string) : text := list_ascii_of_string s.

Definition code (c : ascii) : N := N_of_ascii c.

Definition LF : ascii := ascii_of_N 10.
Definition CR : ascii := ascii_of_N 13.

(** [open(path, "r")] reads in universal-newlines mode: "\r\n" and a lone
    "\r" both arrive as "\n". *)
Fixpoint universal_newlines (s : text) : text :=
  match s with
  | [] => []
  | c :: s' =>
      if (code c =? 13)%N then
        match s' with
        | d :: _ => if (code d =? 10)%N then universal_newlines s'
                    else LF :: universal_newlines s'
        | [] => [LF]
        end
      else c :: universal_newlines s'
  end.

(** ** Character categories of [re] on [str] patterns, below code point 256 *)

Module Category.

Definition in_range (lo hi n : N) : bool := ((lo <=? n) && (n <=? hi))%N.

(** [\d]: Unicode decimal digits; below 256 these are "0".."9". *)
Definition is_digit (c : ascii) : bool := in_range 48 57 (code c).

(** [\s]: Unicode white space; below 256 these are TAB, LF, VT, FF, CR,
    FS, GS, RS, US, SPACE, NEL and NBSP. *)
Definition is_space (c : ascii) : bool :=
  let n := code c in
  in_range 9 13 n || in_range 28 32 n || (n =? 133)%N || (n =? 160)%N.

(** [\w]: alphanumeric (alphabetic, decimal, digit or numeric) or "_". *)
Definition is_word (c : ascii) : bool :=
  let n := code c in
  in_range 48 57 n || in_range 65 90 n || (n =? 95)%N || in_range 97 122 n
  || (n =? 170)%N || (n =? 178)%N || (n =? 179)%N || (n =? 181)%N
  || (n =? 185)%N || (n =? 186)%N || in_range 188 190 n
  || in_range 192 214 n || in_range 216 246 n || in_range 248 255 n.

Definition is_minus (c : ascii) : bool := (code c =? 45)%N.

End Category.

(** ** The pattern matcher *)

Module Sre.

Import Category.

(** The operations the compiled pattern is made of. *)
Inductive op : Type :=
| AT_BOL                                   (* ^ under re.MULTILINE *)
| AT_BOUNDARY                              (* \b *)
| REPEAT (cls : ascii -> bool) (lo : nat) (hi : option nat)
                                           (* greedy cls{lo,hi} *)
| MARK_OPEN                                (* ( *)
| MARK_CLOSE.                              (* ) *)

(** A position in the subject is the character before it (if any) and the
    text from it on. *)
Definition at_bol (prev : option ascii) : bool :=
  match prev with
  | None => true
  | Some c => (code c =? 10)%N
  end.

Definition word_at (c : option ascii) : bool :=
  match c with
  | None => false
  | Some c => is_word c
  end.

Definition at_boundary (prev : option ascii) (s : text) : bool :=
  xorb (word_at prev) (word_at (hd_error s)).

(** Length of the longest run of [cls] characters at the head of [s], at
    most [hi] of them. *)
Fixpoint span (cls : ascii -> bool) (hi : option nat) (s : text) : nat :=
  match hi with
  | Some 0 => 0
  | _ =>
      match s with
      | c :: s' => if cls c then S (span cls (option_map pred hi) s') else 0
      | [] => 0
      end
  end.

(** The character before the position reached after consuming [w]. *)
Definition prev_after (prev : option ascii) (w : text) : option ascii :=
  match rev w with
  | c :: _ => Some c
  | [] => prev
  end.

(** Greedy repetition: continue after [n] characters, and on failure give
    one back, down to [lo]. *)
Fixpoint backtrack (A : Type) (k : option ascii -> text -> option A)
         (prev : option ascii) (s : text) (lo n : nat) : option A :=
  if n <? lo then None
  else
    match k (prev_after prev (firstn n s)) (skipn n s) with
    | Some r => Some r
    | None =>
        match n with
        | 0 => None
        | S n' => backtrack k prev s lo n'
        end
    end.

(** The state of a match attempt: open marks (the text at each open
    group's start) and the groups closed so far, latest first. *)
Fixpoint sre_match (ops : list op) (prev : option ascii) (s : text)
         (opens : list text) (groups : list text)
  : option (list text * text) :=
  match ops with
  | [] => Some (rev groups, s)
  | AT_BOL :: ops' =>
      if at_bol prev then sre_match ops' prev s opens groups else None
  | AT_BOUNDARY :: ops' =>
      if at_boundary prev s then sre_match ops' prev s opens groups else None
  | REPEAT cls lo hi :: ops' =>
      backtrack (fun p s' => sre_match ops' p s' opens groups)
                prev s lo (span cls hi s)
  | MARK_OPEN :: ops' => sre_match ops' prev s (s :: opens) groups
  | MARK_CLOSE :: ops' =>
      match opens with
      | o :: opens' =>
          sre_match ops' prev s opens'
                    (firstn (length o - length s) o :: groups)
      | [] => None
      end
  end.

(** [pattern.findall(text)]: scan left to right; a match is recorded with
    its groups and the scan resumes where it ended.  [skip] counts the
    characters of the last match still to be passed over. *)
Fixpoint findall_from (ops : list op) (prev : option ascii) (s : text)
         (skip : nat) {struct s} : list (list text) :=
  match skip with
  | S skip' =>
      match s with
      | [] => []
      | c :: s' => findall_from ops (Some c) s' skip'
      end
  | 0 =>
      match sre_match ops prev s [] [] with
      | Some (groups, rest) =>
          groups ::
          match s with
          | [] => []
          | c :: s' =>
              findall_from ops (Some c) s' (pred (length s - length rest))
          end
      | None =>
          match s with
          | [] => []
          | c :: s' => findall_from ops (Some c) s' 0
          end
      end
  end.

Definition findall (ops : list op) (s : text) : list (list text) :=
  findall_from ops None s 0.

End Sre.

Import Category.

(** [ROW_RE = re.compile(r"^\s*(\d{7})\s+(\d+)\s+(\d+)\s+(-?\d+)\b",
    re.MULTILINE)] *)
Definition ROW_RE : list Sre.op :=
  [ Sre.AT_BOL; Sre.REPEAT is_space 0 None;
    Sre.MARK_OPEN; Sre.REPEAT is_digit 7 (Some 7); Sre.MARK_CLOSE;
    Sre.REPEAT is_space 1 None;
    Sre.MARK_OPEN; Sre.REPEAT is_digit 1 None; Sre.MARK_CLOSE;
    Sre.REPEAT is_space 1 None;
    Sre.MARK_OPEN; Sre.REPEAT is_digit 1 None; Sre.MARK_CLOSE;
    Sre.REPEAT is_space 1 None;
    Sre.MARK_OPEN; Sre.REPEAT is_minus 0 (Some 1); Sre.REPEAT is_digit 1 None;
    Sre.MARK_CLOSE;
    Sre.AT_BOUNDARY ].

(** ** Exceptions and results *)

Inductive exn : Type :=
| ValueError (msg : string)
| OSError (msg : string)
| InvalidOperation                       (* decimal.InvalidOperation *)
| Overflow.                              (* decimal.Overflow *)

Inductive result (A : Type) : Type :=
| Ok (a : A)
| Raise (e : exn).

Arguments Ok {A} a.
Arguments Raise {A} e.

(** ** The data frame *)

(** One row after the column conversions of [parse_txt]: the two text
    columns stay [str], [JOB] and [TOTALE JOB] are 64-bit integer columns. *)
Record Row : Type := mkRow {
  NUMERO_GARANZIA : text;
  SUFFISSO : text;
  JOB : Z;
  TOTALE_JOB : Z
}.

Definition DataFrame := list Row.

(** [pd.DataFrame(matches, columns=HEADER)]: every tuple must have the four
    columns of [HEADER]. *)
Fixpoint frame_of_matches (matches : list (list text))
  : result (list (text * text * text * text)) :=
  match matches with
  | [] => Ok []
  | [a; b; c; d] :: rest =>
      match frame_of_matches rest with
      | Ok rows => Ok ((a, b, c, d) :: rows)
      | Raise e => Raise e
      end
  | _ :: _ => Raise (ValueError "4 columns passed")
  end.

(** Value of a run of decimal digits, [None] when another character occurs. *)
Fixpoint digits_value (acc : Z) (s : text) : option Z :=
  match s with
  | [] => Some acc
  | c :: s' =>
      if is_digit c
      then digits_value (10 * acc + (Z.of_N (code c) - 48)) s'
      else None
  end.

(** What [pd.to_numeric] reads in one entry of a text column: the integer
    a literal denotes (an optional minus sign and decimal digits, which is
    all that [ROW_RE] lets into a column), as [int(val)] gives it; [None]
    when the entry is not such a literal.  What becomes of the integer
    depends on the column: pandas keeps integers that fit its 64-bit
    columns ([numeric_column] for the sort keys, [convert_row] for the
    converted columns). *)
Definition to_numeric (s : text) : option Z :=
  match s with
  | [] => None
  | c :: s' =>
      if is_minus c
      then match s' with
           | [] => None
           | _ :: _ => option_map Z.opp (digits_value 0 s')
           end
      else digits_value 0 s
  end.

(** [.fillna(0)] *)
Definition fillna (d : Z) (v : option Z) : Z :=
  match v with
  | Some z => z
  | None => d
  end.

(** [.astype(int)]: the column is stored as signed 64-bit integers. *)
Definition astype_int (z : Z) : Z := (z + 2 ^ 63) mod 2 ^ 64 - 2 ^ 63.

(** Lines 41 to 44 on one row, for columns that pandas converts as
    integers, which it does when every entry of the column fits the signed
    64-bit range: the integer is then stored as it is.  (A column with an
    entry of 2^64 or more is converted through float64 instead; the values
    that path yields are not followed here, and the properties proved of
    converted values are stated for entries within the 64-bit range.) *)
Definition convert_row (r : text * text * text * text) : Row :=
  let '(g, s, j, t) := r in
  {| NUMERO_GARANZIA := g;
     SUFFISSO := s;
     JOB := astype_int (fillna 0 (to_numeric j));
     TOTALE_JOB := astype_int (fillna 0 (to_numeric t)) |}.

(** *** [drop_duplicates(subset=[NUMERO GARANZIA, SUFFISSO, JOB], keep="first")] *)

Definition text_eqb (a b : text) : bool :=
  if list_eq_dec ascii_dec a b then true else false.

Definition subset_key (r : Row) : text * text * Z :=
  (NUMERO_GARANZIA r, SUFFISSO r, JOB r).

Definition key_eqb (k1 k2 : text * text * Z) : bool :=
  let '(g1, s1, j1) := k1 in
  let '(g2, s2, j2) := k2 in
  text_eqb g1 g2 && text_eqb s1 s2 && (j1 =? j2)%Z.

Arguments key_eqb : simpl never.
Arguments subset_key : simpl never.

(** Rows are visited in order; a row whose key was seen before is marked
    as a duplicate and left out. *)
Fixpoint drop_duplicates_from (seen : list (text * text * Z)) (df : DataFrame)
  : DataFrame :=
  match df with
  | [] => []
  | r :: df' =>
      if existsb (key_eqb (subset_key r)) seen
      then drop_duplicates_from seen df'
      else r :: drop_duplicates_from (subset_key r :: seen) df'
  end.

Definition drop_duplicates (df : DataFrame) : DataFrame :=
  drop_duplicates_from [] df.

(** *** [sort_values(by=[...], key=lambda c: pd.to_numeric(c, errors="ignore"))] *)

(** An entry of a key column. *)
Inductive cell : Type :=
| KInt (z : Z)
| KStr (s : text).

(** The integers of the entries, or [None] as soon as one entry is not an
    integer literal. *)
Fixpoint int_literals (c : list text) : option (list Z) :=
  match c with
  | [] => Some []
  | s :: c' =>
      match to_numeric s, int_literals c' with
      | Some z, Some zs => Some (z :: zs)
      | _, _ => None
      end
  end.

(** An integer that an int64 or a uint64 column can hold; any other makes
    the conversion fail with "Integer out of range.". *)
Definition in_64bit (z : Z) : bool :=
  ((- 2 ^ 63 <=? z) && (z <? 2 ^ 64))%Z.

(** A column with a negative entry and an entry above the int64 range fits
    neither an int64 nor a uint64 column. *)
Definition sign_conflict (zs : list Z) : bool :=
  existsb (fun z => (z <? 0)%Z) zs && existsb (fun z => (2 ^ 63 <=? z)%Z) zs.

(** [pd.to_numeric(c, errors="ignore")] as a number column: the integers of
    the entries when every entry is an integer literal that fits a 64-bit
    column and the column is an int64 or a uint64 one; [None] when the
    conversion fails, and the column is returned as it is. *)
Definition numeric_column (c : list text) : option (list Z) :=
  match int_literals c with
  | Some zs =>
      if forallb in_64bit zs && negb (sign_conflict zs) then Some zs else None
  | None => None
  end.

(** The key function on a text column: with [errors="ignore"] the column
    becomes numeric when the conversion succeeds and is returned as it is,
    as text, otherwise. *)
Definition key_of_text_column (c : list text) : list cell :=
  match numeric_column c with
  | Some zs => map KInt zs
  | None => map KStr c
  end.

(** The key function on an integer column returns it unchanged. *)
Definition key_of_int_column (c : list Z) : list cell := map KInt c.

(** [str] comparison: lexicographic on code points. *)
Fixpoint text_compare (a b : text) : comparison :=
  match a, b with
  | [], [] => Eq
  | [], _ :: _ => Lt
  | _ :: _, [] => Gt
  | x :: a', y :: b' =>
      match N.compare (code x) (code y) with
      | Eq => text_compare a' b'
      | o => o
      end
  end.

(** Entries of one key column are all of the same kind; the mixed cases are
    never compared. *)
Definition cell_compare (a b : cell) : comparison :=
  match a, b with
  | KInt x, KInt y => Z.compare x y
  | KStr x, KStr y => text_compare x y
  | KInt _, KStr _ => Lt
  | KStr _, KInt _ => Gt
  end.

Definition sort_key := (cell * cell * cell)%type.

(** Lexicographic comparison of the three key columns, in the order of
    [by]. *)
Definition key_compare (k1 k2 : sort_key) : comparison :=
  let '(a1, b1, c1) := k1 in
  let '(a2, b2, c2) := k2 in
  match cell_compare a1 a2 with
  | Eq => match cell_compare b1 b2 with
          | Eq => cell_compare c1 c2
          | o => o
          end
  | o => o
  end.

Definition key_leb (k1 k2 : sort_key) : bool :=
  match key_compare k1 k2 with
  | Gt => false
  | _ => true
  end.

(** The stable sort of keyed rows: an element is placed before the first
    one of the already sorted later elements that is not smaller. *)
Fixpoint insert_keyed (A : Type) (x : sort_key * A) (l : list (sort_key * A))
  : list (sort_key * A) :=
  match l with
  | [] => [x]
  | y :: l' =>
      if key_leb (fst x) (fst y) then x :: l else y :: insert_keyed x l'
  end.

Fixpoint lexsort (A : Type) (l : list (sort_key * A)) : list (sort_key * A) :=
  match l with
  | [] => []
  | x :: l' => insert_keyed x (lexsort l')
  end.

Fixpoint zip3 (a b c : list cell) : list sort_key :=
  match a, b, c with
  | x :: a', y :: b', z :: c' => (x, y, z) :: zip3 a' b' c'
  | _, _, _ => []
  end.

Definition sort_keys (df : DataFrame) : list sort_key :=
  zip3 (key_of_text_column (map NUMERO_GARANZIA df))
       (key_of_text_column (map SUFFISSO df))
       (key_of_int_column (map JOB df)).

Definition sort_values (df : DataFrame) : DataFrame :=
  map snd (lexsort (combine (sort_keys df) df)).

(** *** [parse_txt], from the text that [f.read()] returned *)

Definition no_rows_msg : string :=
  "Nessuna riga valida trovata nel TXT (controlla il formato).".

(** Lines 37 to 44: the rows found, with their columns converted. *)
Definition extract (t : text) : result DataFrame :=
  let matches := Sre.findall ROW_RE t in
  match matches with
  | [] => Raise (ValueError no_rows_msg)
  | _ :: _ =>
      match frame_of_matches matches with
      | Raise e => Raise e
      | Ok rows => Ok (map convert_row rows)
      end
  end.

(** Lines 45 to 47: duplicates dropped, then sorted. *)
Definition normalize (df : DataFrame) : DataFrame :=
  sort_values (drop_duplicates df).

Definition parse_text (t : text) : result DataFrame :=
  match extract t with
  | Ok df => Ok (normalize df)
  | Raise e => Raise e
  end.

(** ** [decimal.Decimal] under the default context *)

Module PyDecimal.

Local Open Scope Z_scope.

(** A finite decimal: [(-1)^sign * coeff * 10^exp], [coeff] the integer
    its digit string denotes. *)
Record t : Type := mk { sign : bool; coeff : Z; exp : Z }.

(** [getcontext()]: precision 28, ROUND_HALF_EVEN, exponents within
    [Emin, Emax], InvalidOperation and Overflow trapped. *)
Definition prec : Z := 28.
Definition Emax : Z := 999999.
Definition Emin : Z := -999999.
Definition Etiny : Z := Emin - prec + 1.
Definition Etop : Z := Emax - prec + 1.

Inductive rounding : Type := ROUND_HALF_UP | ROUND_HALF_EVEN.

Definition context_rounding : rounding := ROUND_HALF_EVEN.

(** The decimal digits of a natural number, most significant first. *)
Fixpoint digits_fuel (fuel : nat) (c : Z) (acc : text) : text :=
  let d := ascii_of_N (Z.to_N (48 + c mod 10)) in
  match fuel with
  | O => d :: acc
  | S fuel' =>
      if c <? 10 then d :: acc else digits_fuel fuel' (c / 10) (d :: acc)
  end.

Definition digits (c : Z) : text :=
  digits_fuel (Z.to_nat (Z.log2 c)) c [].

(** [len(self._int)] *)
Definition ndigits (c : Z) : Z := Z.of_nat (length (digits c)).

Definition is_zero (d : t) : bool := coeff d =? 0.

Definition adjusted (d : t) : Z := exp d + ndigits (coeff d) - 1.

(** [Decimal(n)] for an [int] *)
Definition of_int (n : Z) : t := mk (n <? 0) (Z.abs n) 0.

(** Whether dropping the remainder [r] of a division by [p] rounds the
    quotient [q] away from zero. *)
Definition rounds_up (m : rounding) (q r p : Z) : bool :=
  match m with
  | ROUND_HALF_UP => p <=? 2 * r
  | ROUND_HALF_EVEN => (p <? 2 * r) || ((p =? 2 * r) && Z.odd q)
  end.

(** The coefficient with its last [k] digits rounded off. *)
Definition round_off (m : rounding) (c k : Z) : Z :=
  let p := 10 ^ k in
  let q := c / p in
  if rounds_up m q (c mod p) p then q + 1 else q.

(** [self._rescale(e, rounding)] *)
Definition rescale (d : t) (e : Z) (m : rounding) : t :=
  if is_zero d then mk (sign d) 0 e
  else if e <=? exp d then mk (sign d) (coeff d * 10 ^ (exp d - e)) e
  else mk (sign d) (round_off m (coeff d) (e - exp d)) e.

(** [self._fix(context)]: round to the context's precision and check the
    exponent range. *)
Definition fix_ (d : t) : result t :=
  if is_zero d then Ok (mk (sign d) 0 (Z.min (Z.max (exp d) Etiny) Emax))
  else
    let exp_min := ndigits (coeff d) + exp d - prec in
    if Etop <? exp_min then Raise Overflow
    else
      let exp_min := Z.max exp_min Etiny in
      if exp d <? exp_min then
        let c := round_off context_rounding (coeff d) (exp_min - exp d) in
        let '(c, exp_min) :=
          if prec <? ndigits c then (c / 10, exp_min + 1) else (c, exp_min) in
        if Etop <? exp_min then Raise Overflow
        else Ok (mk (sign d) c exp_min)
      else Ok d.

(** [self * other] *)
Definition mul (a b : t) : result t :=
  fix_ (mk (xorb (sign a) (sign b)) (coeff a * coeff b) (exp a + exp b)).

(** [_normalize(op1, op2, prec)]: the operand with the larger exponent is
    scaled to the smaller one; a much smaller operand is replaced by a
    sticky unit first. *)
Definition normalize (a b : t) : t * t :=
  let '(tmp, other, swapped) :=
    if exp a <? exp b then (b, a, true) else (a, b, false) in
  let e := exp tmp + Z.min (-1) (ndigits (coeff tmp) - prec - 2) in
  let other :=
    if ndigits (coeff other) + exp other - 1 <? e
    then mk (sign other) 1 e else other in
  let tmp :=
    mk (sign tmp) (coeff tmp * 10 ^ (exp tmp - exp other)) (exp other) in
  if swapped then (other, tmp) else (tmp, other).

(** [self + other] *)
Definition add (a b : t) : result t :=
  let e := Z.min (exp a) (exp b) in
  if is_zero a && is_zero b then fix_ (mk (sign a && sign b) 0 e)
  else if is_zero a then
    fix_ (rescale b (Z.max e (exp b - prec - 1)) context_rounding)
  else if is_zero b then
    fix_ (rescale a (Z.max e (exp a - prec - 1)) context_rounding)
  else
    let '(op1, op2) := normalize a b in
    if Bool.eqb (sign op1) (sign op2)
    then fix_ (mk (sign op1) (coeff op1 + coeff op2) (exp op1))
    else if coeff op1 =? coeff op2 then fix_ (mk false 0 e)
    else
      let '(op1, op2) :=
        if coeff op1 <? coeff op2 then (op2, op1) else (op1, op2) in
      fix_ (mk (sign op1) (coeff op1 - coeff op2) (exp op1)).

(** [self.quantize(q, rounding=m)] *)
Definition quantize (d q : t) (m : rounding) : result t :=
  if negb ((Etiny <=? exp q) && (exp q <=? Emax)) then Raise InvalidOperation
  else if is_zero d then fix_ (mk (sign d) 0 (exp q))
  else if Emax <? adjusted d then Raise InvalidOperation
  else if prec <? adjusted d - exp q + 1 then Raise InvalidOperation
  else
    let ans := rescale d (exp q) m in
    if Emax <? adjusted ans then Raise InvalidOperation
    else if prec <? ndigits (coeff ans) then Raise InvalidOperation
    else fix_ ans.

End PyDecimal.

Definition bind (A B : Type) (x : result A) (f : A -> result B) : result B :=
  match x with
  | Ok a => f a
  | Raise e => Raise e
  end.

Notation "x <- c ;; k" := (bind c (fun x => k))
  (at level 61, c at next level, right associativity).

Local Open Scope Z_scope.

(** ** The totals of [build_pdf] *)

(** [Decimal("0.22")] and [Decimal("0.01")] *)
Definition rate : PyDecimal.t := PyDecimal.mk false 22 (-2)%Z.
Definition cent : PyDecimal.t := PyDecimal.mk false 1 (-2)%Z.

(** [df["TOTALE JOB"].astype(int).sum()]: the sum of a 64-bit integer
    column, taken in 64 bits. *)
Definition column_sum (c : list Z) : Z :=
  astype_int (fold_right Z.add 0 (map astype_int c)).

Record Totals : Type := mkTotals {
  totale : PyDecimal.t;
  iva : PyDecimal.t;
  ivato : PyDecimal.t
}.

(** Lines 58 and 59, from the integer total. *)
Definition totals_from (total : Z) : result Totals :=
  let totale := PyDecimal.of_int total in
  p <- PyDecimal.mul totale rate ;;
  iva <- PyDecimal.quantize p cent PyDecimal.ROUND_HALF_UP ;;
  s <- PyDecimal.add totale iva ;;
  ivato <- PyDecimal.quantize s cent PyDecimal.ROUND_HALF_UP ;;
  Ok (mkTotals totale iva ivato).

Definition totals_of (df : DataFrame) : result Totals :=
  totals_from (column_sum (map TOTALE_JOB df)).

(** ** [eur_fmt] *)

(** [_insert_thousands_sep]: groups of three digits from the right, joined
    by ",".  [r] is the digit string reversed, [n] the digits already in the
    current group. *)
Fixpoint group_reversed (r : text) (n : nat) : text :=
  match r with
  | [] => []
  | d :: r' =>
      match n with
      | 3%nat => "," %char :: d :: group_reversed r' 1
      | _ => d :: group_reversed r' (S n)
      end
  end.

Definition insert_thousands_sep (ds : text) : text :=
  rev (group_reversed (rev ds) 0).

(** [f"{q:,.2f}"]: [Decimal.__format__] rescales to two places under the
    context's rounding, splits the digits at the decimal point and groups
    the integer part. *)
Definition format_comma_2f (q : PyDecimal.t) : text :=
  let d := PyDecimal.rescale q (-2) PyDecimal.context_rounding in
  let ds := PyDecimal.digits (PyDecimal.coeff d) in
  let dotplace := Z.of_nat (length ds) - 2 in
  let '(intpart, fracpart) :=
    if dotplace <? 0
    then (chars "0", repeat "0"%char (Z.to_nat (- dotplace)) ++ ds)
    else (match firstn (Z.to_nat dotplace) ds with
          | [] => chars "0"
          | i => i
          end, skipn (Z.to_nat dotplace) ds) in
  (if PyDecimal.sign d then chars "-" else []) ++
  insert_thousands_sep intpart ++ chars "." ++ fracpart.

(** [s.replace(a, b)] for one-character [a] and [b] *)
Definition replace (a b : ascii) (s : text) : text :=
  map (fun c => if Ascii.eqb c a then b else c) s.

(** The literal that [eur_fmt] appends, as it stands in the source. *)
Definition currency_suffix : text := chars " â‚¬".

Definition eur_fmt (val : PyDecimal.t) : result text :=
  q <- PyDecimal.quantize val cent PyDecimal.ROUND_HALF_UP ;;
  let s := format_comma_2f q in
  let s := replace "X" "." (replace "." "," (replace "," "X" s)) in
  Ok (s ++ currency_suffix).

(** ** The program in its environment *)

Local Open Scope string_scope.

(** A regular file: whether it can be opened for reading, and its bytes. *)
Record File : Type := mkFile { readable : bool; data : text }.

(** The console and the file store. *)
Record World : Type := mkWorld {
  stdout : list string;                  (* lines printed, oldest first *)
  store : string -> option File;         (* regular files, by path *)
  writable : string -> bool              (* paths that can be written *)
}.

(** What [build_pdf] hands to the layout library. *)
Inductive table_cell : Type :=
| TStr (s : text)
| TInt (z : Z).

Record Story : Type := mkStory {
  table_data : list (list table_cell);   (* HEADER, then one row per record *)
  totals_block : list (string * text)    (* the three total lines *)
}.

Definition HEADER : list string :=
  ["NUMERO GARANZIA"; "SUFFISSO"; "JOB"; "TOTALE JOB"].

(** A computation that prints, reads and writes, and returns or raises. *)
Definition IO (A : Type) : Type := World -> World * result A.

Definition ret (A : Type) (a : A) : IO A := fun w => (w, Ok a).

Definition raise (A : Type) (e : exn) : IO A := fun w => (w, Raise e).

Arguments raise {A} e.

Definition io_bind (A B : Type) (m : IO A) (f : A -> IO B) : IO B :=
  fun w =>
    match m w with
    | (w', Ok a) => f a w'
    | (w', Raise e) => (w', Raise e)
    end.

(** [try: m except Exception as e: h e] *)
Definition try_except (A : Type) (m : IO A) (h : exn -> IO A) : IO A :=
  fun w =>
    match m w with
    | (w', Ok a) => (w', Ok a)
    | (w', Raise e) => h e w'
    end.

Definition lift (A : Type) (r : result A) : IO A := fun w => (w, r).

Notation "x <~ c ;; k" := (io_bind c (fun x => k))
  (at level 61, c at next level, right associativity).
Notation "c ;;; k" := (io_bind c (fun _ => k))
  (at level 61, right associativity).

Definition print (line : string) : IO unit :=
  fun w => (mkWorld (stdout w ++ [line]) (store w) (writable w), Ok tt).

(** [str(e)] *)
Definition exn_str (e : exn) : string :=
  match e with
  | ValueError msg => msg
  | OSError msg => msg
  | InvalidOperation => "[<class 'decimal.InvalidOperation'>]"
  | Overflow => "[<class 'decimal.Overflow'>]"
  end.

(** [str(n)] for an [int] *)
Definition int_str (n : Z) : text :=
  ((if (n <? 0)%Z then chars "-" else []) ++ PyDecimal.digits (Z.abs n))%list.

(** [repr(s)] for a [str] of code points below 256: in single quotes, or
    in double quotes when [s] has a single quote and no double quote; the
    quote and the backslash escaped, tab, line feed and carriage return by
    their letters, the other characters that are not printable in
    hexadecimal. *)
Definition squote : ascii := ascii_of_N 39.
Definition dquote : ascii := ascii_of_N 34.
Definition backslash : ascii := ascii_of_N 92.

Fixpoint contains (c : ascii) (s : string) : bool :=
  match s with
  | EmptyString => false
  | String d s' => Ascii.eqb c d || contains c s'
  end.

Definition hex_digit (n : N) : ascii :=
  if (n <? 10)%N then ascii_of_N (48 + n) else ascii_of_N (87 + n).

Definition printable (n : N) : bool :=
  ((32 <=? n) && (n <? 127) || (161 <=? n) && negb (n =? 173))%N.

Definition repr_char (quote c : ascii) : string :=
  let n := N_of_ascii c in
  if Ascii.eqb c quote || Ascii.eqb c backslash
  then String backslash (String c EmptyString)
  else if (n =? 9)%N then String backslash "t"
  else if (n =? 10)%N then String backslash "n"
  else if (n =? 13)%N then String backslash "r"
  else if printable n then String c EmptyString
  else String backslash
         (String "x" (String (hex_digit (n / 16))
                             (String (hex_digit (n mod 16)) EmptyString))).

Fixpoint repr_chars (quote : ascii) (s : string) : string :=
  match s with
  | EmptyString => String quote EmptyString
  | String c s' => repr_char quote c ++ repr_chars quote s'
  end.

Definition py_repr (s : string) : string :=
  let quote :=
    if contains squote s && negb (contains dquote s) then dquote else squote in
  String quote (repr_chars quote s).

(** [str(e)] of the FileNotFoundError and of the PermissionError that
    opening [path] raises. *)
Definition file_not_found (path : string) : string :=
  "[Errno 2] No such file or directory: " ++ py_repr path.

Definition permission_denied (path : string) : string :=
  "[Errno 13] Permission denied: " ++ py_repr path.

Section Program.

(** [os.path] and the PDF layout library are the program's
    surroundings. *)
Variable basename : string -> string.
Variable splitext : string -> string * string.
Variable dirname : string -> string.
Variable abspath : string -> string.
Variable getcwd : string.
Variable join : string -> string -> string.
Variable render : Story -> text.

(** [open(path, "r", encoding="latin-1", errors="ignore")] and
    [f.read()]: every byte decodes, line ends are translated. *)
Definition read_text (path : string) : IO text :=
  fun w =>
    match store w path with
    | Some f =>
        if readable f then (w, Ok (universal_newlines (data f)))
        else (w, Raise (OSError (permission_denied path)))
    | None => (w, Raise (OSError (file_not_found path)))
    end.

Definition parse_txt (path : string) : IO DataFrame :=
  t <~ read_text path ;;
  lift (parse_text t).

Definition story_of (df : DataFrame) (t : Totals) : result Story :=
  iva_s <- eur_fmt (iva t) ;;
  ivato_s <- eur_fmt (ivato t) ;;
  Ok {| table_data :=
          map TStr (map chars HEADER) ::
          map (fun r => [TStr (NUMERO_GARANZIA r); TStr (SUFFISSO r);
                         TInt (JOB r); TInt (TOTALE_JOB r)]) df;
        totals_block :=
          [("Totale", int_str (column_sum (map TOTALE_JOB df)));
           ("IVA 22%", iva_s);
           ("Totale IVA inclusa", ivato_s)] |}.

(** [doc.build(story)] writes the document, replacing an older one.  The
    one failure of the write that the world has is the missing permission
    on the path. *)
Definition write_document (path : string) (st : Story) : IO unit :=
  fun w =>
    if writable w path
    then (mkWorld (stdout w)
                  (fun p => if String.eqb p path
                            then Some (mkFile true (render st))
                            else store w p)
                  (writable w), Ok tt)
    else (w, Raise (OSError (permission_denied path))).

Definition build_pdf (df : DataFrame) (out_pdf : string) : IO unit :=
  t <~ lift (totals_of df) ;;
  st <~ lift (story_of df t) ;;
  write_document out_pdf st.

Definition output_path_for (txt_path : string) : string :=
  let '(base, _) := splitext (basename txt_path) in
  let d := dirname (abspath txt_path) in
  let directory := if String.eqb d "" then getcwd else d in
  join directory (base ++ "_Riepilogo_Garanzie.pdf").

Definition process_file (txt_path : string) : IO string :=
  print ("Elaborazione: " ++ txt_path) ;;;
  df <~ parse_txt txt_path ;;
  print ("Righe estratte: " ++
         string_of_list_ascii (int_str (Z.of_nat (length df)))) ;;;
  let out_pdf := output_path_for txt_path in
  build_pdf df out_pdf ;;;
  print ("PDF generato: " ++ out_pdf) ;;;
  ret out_pdf.

(** The loop of [main]: [created] collects the paths written so far. *)
Fixpoint process_all (files : list string) (created : list string)
  : IO (list string) :=
  match files with
  | [] => ret created
  | f :: files' =>
      c <~ try_except (process_file f)
             (fun e =>
                print ("ERRORE durante l'elaborazione di " ++ f ++ ": " ++
                       exn_str e) ;;;
                raise e) ;;
      process_all files' (created ++ [c])
  end.

Fixpoint print_created (created : list string) : IO unit :=
  match created with
  | [] => ret tt
  | c :: created' => print ("CREATO: " ++ c) ;;; print_created created'
  end.

Definition usage : string :=
  "Nessun file passato. Trascina il file .txt sull'exe oppure esegui: RiepilogoGaranzie.exe percorso\file.txt".

(** [os.path.isfile] *)
Definition isfile (w : World) (p : string) : bool :=
  match store w p with
  | Some _ => true
  | None => false
  end.

(** [main()], on [sys.argv[1:]] *)
Definition main (args : list string) : IO Z :=
  fun w =>
    let files := filter (isfile w) args in
    match files with
    | [] => (print usage ;;; ret 0) w
    | _ :: _ =>
        (created <~ process_all files [] ;;
         print "Elaborazione completata." ;;;
         print_created created ;;;
         ret 0) w
    end.

End Program.

Local Close Scope string_scope.

Definition scenario_text : text :=
  chars "0000123 001 1 100" ++ [LF] ++
  chars "0000123 001 1 999" ++ [LF] ++
  chars "0000123 002 1 50".


Definition row (g s : string) (j t : Z) : Row := mkRow (chars g) (chars s) j t.

(** The tax and the tax-inclusive total of an integer [t], to the cent. *)
Definition tax_exact (t : Z) : PyDecimal.t :=
  PyDecimal.mk (t <? 0) (Z.abs t * 22) (-2).

Definition gross_exact (t : Z) : PyDecimal.t :=
  PyDecimal.mk (t <? 0) (Z.abs t * 122) (-2).

(** What the proofs need of a three-way comparison. *)
Class Order (A : Type) (cmp : A -> A -> comparison) : Prop := {
  cmp_eq : forall a b, cmp a b = Eq <-> a = b;
  cmp_antisym : forall a b, cmp b a = CompOpp (cmp a b);
  cmp_trans : forall a b c, cmp a b = Lt -> cmp b c = Lt -> cmp a c = Lt
}.

(** Lexicographic comparison of pairs. *)
Definition lex (A B : Type) (cmpA : A -> A -> comparison)
           (cmpB : B -> B -> comparison) (x y : A * B) : comparison :=
  match cmpA (fst x) (fst y) with
  | Eq => cmpB (snd x) (snd y)
  | o => o
  end.

(** Whether [to_numeric] reads an entry as a number. *)
Definition parses (s : text) : bool :=
  match to_numeric s with
  | Some _ => true
  | None => false
  end.

(** The integers of a column's entries, 0 for an entry that is none. *)
Definition values (c : list text) : list Z :=
  map (fun s => fillna 0 (to_numeric s)) c.

(** Whether the key function turns a text column into numbers. *)
Definition numeric_like (c : list text) : bool :=
  forallb parses c && forallb in_64bit (values c)
  && negb (sign_conflict (values c)).


(** The lines of a text: the pieces between line feeds. *)
Fixpoint lines (t : text) : list text :=
  match t with
  | [] => [[]]
  | c :: t' =>
      if (code c =? 10)%N then [] :: lines t'
      else match lines t' with
           | l :: ls => (c :: l) :: ls
           | [] => [[c]]
           end
  end.

(** Whether the record pattern matches a line taken on its own. *)
Definition line_matches (l : text) : bool :=
  match Sre.sre_match ROW_RE None l [] [] with
  | Some _ => true
  | None => false
  end.

(** Whether the record pattern matches at offset [i] of the text. *)
Definition matches_at (t : text) (i : nat) : bool :=
  match Sre.sre_match ROW_RE (Sre.prev_after None (firstn i t)) (skipn i t)
                      [] [] with
  | Some _ => true
  | None => false
  end.

(** Whether the record pattern matches at some offset of the text. *)
Definition matches_somewhere (t : text) : bool :=
  existsb (matches_at t) (seq 0 (S (length t))).

(** A text whose record runs over a line break. *)
Definition cross_line_text : text :=
  chars "0000123" ++ [LF] ++ chars "001 1 100".

(** A non-empty run of decimal digits. *)
Definition digits_only (s : text) : bool :=
  match s with
  | [] => false
  | _ :: _ => forallb is_digit s
  end.

(** The two text fields of a row are digit runs, as the data model has
    them. *)
Definition digit_fields (r : Row) : bool :=
  digits_only (NUMERO_GARANZIA r) && digits_only (SUFFISSO r).

(** The values of a signed 64-bit integer column. *)
Definition in_int64 (z : Z) : bool :=
  ((- 2 ^ 63 <=? z) && (z <? 2 ^ 63))%Z.

(** A record as the data model describes it. *)
Definition well_formed (r : Row) : bool :=
  (length (NUMERO_GARANZIA r) =? 7)%nat
  && forallb is_digit (NUMERO_GARANZIA r)
  && digits_only (SUFFISSO r)
  && in_int64 (JOB r) && in_int64 (TOTALE_JOB r).

(** What the pattern guarantees of the four captured fields. *)
Definition fields_ok (a b c d : text) : Prop :=
  length a = 7%nat /\ forallb is_digit a = true /\ digits_only b = true.

(** Whether the key function turned a text column into numbers. *)
Inductive kind : Type := Numeric | Textual.

Definition column_kind (c : list text) : kind :=
  match numeric_column c with
  | Some _ => Numeric
  | None => Textual
  end.

(** The key of one entry of a text column of the given kind. *)
Definition field_key (k : kind) (s : text) : cell :=
  match k with
  | Numeric => KInt (fillna 0 (to_numeric s))
  | Textual => KStr s
  end.

(** The sort key of a row, given the kinds of the two text columns. *)
Definition row_key (kg ks : kind) (r : Row) : sort_key :=
  (field_key kg (NUMERO_GARANZIA r), field_key ks (SUFFISSO r), KInt (JOB r)).

Definition key_is (k1 k2 : sort_key) : bool :=
  match key_compare k1 k2 with
  | Eq => true
  | _ => false
  end.

(** The order of the rows of a frame sorted on its own key columns. *)
Definition row_le (df : DataFrame) (r1 r2 : Row) : Prop :=
  let kg := column_kind (map NUMERO_GARANZIA df) in
  let ks := column_kind (map SUFFISSO df) in
  key_leb (row_key kg ks r1) (row_key kg ks r2) = true.

(** The rows of [l] that sort with key [k] on the key columns of [df]. *)
Definition with_key (df : DataFrame) (k : sort_key) (l : DataFrame)
  : DataFrame :=
  let kg := column_kind (map NUMERO_GARANZIA df) in
  let ks := column_kind (map SUFFISSO df) in
  filter (fun r => key_is (row_key kg ks r) k) l.

(** The rows of [l] with the same duplicate key as [r]. *)
Definition same_subset (r : Row) (l : DataFrame) : DataFrame :=
  filter (fun x => key_eqb (subset_key x) (subset_key r)) l.

(** The number a decimal denotes. *)
Definition value (d : PyDecimal.t) : Q :=
  (inject_Z (if PyDecimal.sign d then - PyDecimal.coeff d else PyDecimal.coeff d)
   * (10 # 1) ^ PyDecimal.exp d)%Q.

(** A decimal with two places, in cents. *)
Definition cents (d : PyDecimal.t) : Z :=
  if PyDecimal.sign d then - PyDecimal.coeff d else PyDecimal.coeff d.

(** Rounding to two decimal places, halves away from zero, as the
    specification words it; the result is a number of cents. *)
Definition round_half_up_cents (q : Q) : Z :=
  let n := Qnum q in
  let d := Z.pos (Qden q) in
  Z.sgn n * ((2 * 100 * Z.abs n + d) / (2 * d)).

(** The line [main] prints for a file [f] whose processing raised [e]. *)
Definition diagnostic (f : string) (e : exn) : string :=
  ("ERRORE durante l'elaborazione di " ++ f ++ ": " ++ exn_str e)%string.

(** A small batch: one good file, one without rows, one never reached. *)
Definition demo_store (p : string) : option File :=
  if String.eqb p "ok.txt" then Some (mkFile true (chars "0000123 001 1 100"))
  else if String.eqb p "bad.txt" then Some (mkFile true (chars "no rows"))
  else if String.eqb p "later.txt" then Some (mkFile true (chars "0000999 1 1 5"))
  else None.

Definition demo_world : World := mkWorld [] demo_store (fun _ => true).

Definition demo_process_file : string -> IO string :=
  process_file (fun p => p) (fun p => (p, ""%string)) (fun _ => "out"%string)
               (fun p => p) "."%string (fun d b => (d ++ "/" ++ b)%string)
               (fun _ => []).

Definition demo_process_all : list string -> list string -> IO (list string) :=
  process_all (fun p => p) (fun p => (p, ""%string)) (fun _ => "out"%string)
              (fun p => p) "."%string (fun d b => (d ++ "/" ++ b)%string)
              (fun _ => []).

Definition demo_main : list string -> IO Z :=
  main (fun p => p) (fun p => (p, ""%string)) (fun _ => "out"%string)
       (fun p => p) "."%string (fun d b => (d ++ "/" ++ b)%string)
       (fun _ => []).

(** ** Record lines and reports *)

(** A non-empty run of white space. *)
Definition spaces_only (w : text) : bool :=
  match w with
  | [] => false
  | _ :: _ => forallb is_space w
  end.








(** ** Worlds after printing and writing *)

(** The world after the lines [ls] were printed. *)
Definition printed (w : World) (ls : list string) : World :=
  mkWorld (stdout w ++ ls) (store w) (writable w).

(** The world after a document was written at [path]. *)
Definition written (w : World) (path : string) (content : text) : World :=
  mkWorld (stdout w)
          (fun p => if String.eqb p path then Some (mkFile true content)
                    else store w p)
          (writable w).

(** From [w] to [w'] lines were printed and at most the paths [outs] were
    written: no other path changed, no file went away, no permission
    changed. *)
Definition only_writes (outs : list string) (w w' : World) : Prop :=
  writable w' = writable w
  /\ (exists ls, stdout w' = stdout w ++ ls)
  /\ (forall p, ~ In p outs -> store w' p = store w p)
  /\ (forall p, store w p <> None -> store w' p <> None).

(** ** Amounts as [eur_fmt] prints them *)

(** The character of the decimal digit [k]. *)
Definition digit_char (k : Z) : ascii := ascii_of_N (Z.to_N (48 + k)).

(** The whole units of an amount: the digits grouped in threes, with "."
    between the groups. *)
Definition units_text (u : Z) : text :=
  replace "," "." (insert_thousands_sep (PyDecimal.digits u)).

(** * Verification *)

(** ** The end-to-end scenario *)

(** C1, as the claim has it, fails: on the three-line text the scan does not
    find 2 raw matches. *)
Lemma scenario_raw_matches_not_two :
  length (Sre.findall ROW_RE scenario_text) <> 2%nat.
Proof. vm_compute. discriminate. Qed.

(** C1, amended: on the three-line text the scan finds 3 raw matches (every
    line is a row), normalization leaves the 2 records with [TOTALE JOB] 100
    and 50 (the 999 duplicate is dropped), in ascending order of suffix, and
    the totals are 150, 33.00 and 183.00. *)
Theorem scenario_end_to_end :
  map (map string_of_list_ascii) (Sre.findall ROW_RE scenario_text) =
    [ ["0000123"; "001"; "1"; "100"];
      ["0000123"; "001"; "1"; "999"];
      ["0000123"; "002"; "1"; "50"] ]%string
  /\ parse_text scenario_text =
       Ok [row "0000123" "001" 1 100; row "0000123" "002" 1 50]
  /\ (df <- parse_text scenario_text ;; totals_of df) =
       Ok {| totale := PyDecimal.mk false 150 0;
             iva := PyDecimal.mk false 3300 (-2);
             ivato := PyDecimal.mk false 18300 (-2) |}.
Proof. repeat split; vm_compute; reflexivity. Qed.

(** ** Decimal arithmetic on 64-bit totals *)

Lemma astype_int_range (z : Z) : - 2 ^ 63 <= astype_int z < 2 ^ 63.
Proof.
  unfold astype_int.
  assert (H : 0 <= (z + 2 ^ 63) mod 2 ^ 64 < 2 ^ 64)
    by (apply Z.mod_pos_bound; reflexivity).
  change (2 ^ 64) with (2 * 2 ^ 63) in *. lia.
Qed.

Lemma astype_int_id (z : Z) : - 2 ^ 63 <= z < 2 ^ 63 -> astype_int z = z.
Proof.
  intros H. unfold astype_int.
  rewrite Z.mod_small; [lia|].
  change (2 ^ 64) with (2 * 2 ^ 63). lia.
Qed.

Module DigitFacts.

Import PyDecimal.

Lemma digits_fuel_at_least (fuel : nat) :
  forall c acc, (S (length acc) <= length (digits_fuel fuel c acc))%nat.
Proof.
  induction fuel as [|fuel IH]; intros c acc; simpl.
  - lia.
  - destruct (c <? 10); simpl; [lia|].
    specialize (IH (c / 10) (ascii_of_N (Z.to_N (48 + c mod 10)) :: acc)).
    simpl in IH. lia.
Qed.

Lemma digits_fuel_at_most (fuel : nat) :
  forall c acc (k : nat),
    0 <= c < 10 ^ Z.of_nat (S k) ->
    (length (digits_fuel fuel c acc) <= S k + length acc)%nat.
Proof.
  induction fuel as [|fuel IH]; intros c acc k H; simpl.
  - lia.
  - destruct (Z.ltb_spec c 10) as [Hc|Hc]; simpl; [lia|].
    destruct k as [|k].
    + change (10 ^ Z.of_nat 1) with 10 in H. lia.
    + specialize (IH (c / 10) (ascii_of_N (Z.to_N (48 + c mod 10)) :: acc) k).
      simpl length in IH.
      assert (Hq : 0 <= c / 10 < 10 ^ Z.of_nat (S k)).
      { split; [apply Z.div_pos; lia|].
        apply Z.div_lt_upper_bound; [lia|].
        replace (Z.of_nat (S (S k))) with (Z.succ (Z.of_nat (S k))) in H by lia.
        rewrite Z.pow_succ_r in H by lia. lia. }
      specialize (IH Hq). lia.
Qed.

Lemma ndigits_pos (c : Z) : 1 <= ndigits c.
Proof.
  unfold ndigits, digits.
  pose proof (digits_fuel_at_least (Z.to_nat (Z.log2 c)) c []) as H.
  simpl in H. lia.
Qed.

Lemma ndigits_le (c : Z) (k : nat) :
  0 <= c < 10 ^ Z.of_nat (S k) -> ndigits c <= Z.of_nat (S k).
Proof.
  intros H. unfold ndigits, digits.
  pose proof (digits_fuel_at_most (Z.to_nat (Z.log2 c)) [] k H) as L.
  simpl in L. lia.
Qed.

Lemma ndigits_two (c : Z) : 10 <= c -> 2 <= ndigits c.
Proof.
  intros H. unfold ndigits, digits.
  assert (L : 3 <= Z.log2 c).
  { change 3 with (Z.log2 8). apply Z.log2_le_mono. lia. }
  destruct (Z.to_nat (Z.log2 c)) as [|fuel] eqn:E; [lia|].
  simpl. destruct (Z.ltb_spec c 10); [lia|].
  pose proof (digits_fuel_at_least fuel (c / 10)
                [ascii_of_N (Z.to_N (48 + c mod 10))]) as G.
  simpl in G. lia.
Qed.

End DigitFacts.

(** Boolean tests on integers, turned into facts for [lia]. *)
Ltac bool_facts :=
  repeat match goal with
  | H : (_ <? _) = true |- _ => apply Z.ltb_lt in H
  | H : (_ <? _) = false |- _ => apply Z.ltb_ge in H
  | H : (_ <=? _) = true |- _ => apply Z.leb_le in H
  | H : (_ <=? _) = false |- _ => apply Z.leb_gt in H
  | H : (_ =? _) = true |- _ => apply Z.eqb_eq in H
  | H : (_ =? _) = false |- _ => apply Z.eqb_neq in H
  | H : negb _ = true |- _ => apply negb_true_iff in H
  | H : negb _ = false |- _ => apply negb_false_iff in H
  | H : andb _ _ = true |- _ => apply andb_true_iff in H; destruct H
  | H : andb _ _ = false |- _ => apply andb_false_iff in H; destruct H
  | H : orb _ _ = false |- _ => apply orb_false_iff in H; destruct H
  end.

(** Decide the first conditional of the goal; the branch that contradicts
    the context is closed by [lia]. *)
Ltac step_if :=
  match goal with
  | |- context [if ?b then _ else _] =>
      destruct b eqn:?; bool_facts; try lia
  end.

(** Decide an integer comparison occurring in the goal. *)
Ltac step_test :=
  match goal with
  | |- context [?a <? ?b] => destruct (Z.ltb_spec a b); try lia
  | |- context [?a <=? ?b] => destruct (Z.leb_spec a b); try lia
  | |- context [?a =? ?b] => destruct (Z.eqb_spec a b); try lia
  end.

Module DecimalFacts.

Import PyDecimal DigitFacts.

Ltac constants := unfold Etop, Etiny, Emax, Emin, prec in *.

Lemma fix_small (d : t) :
  0 < coeff d -> ndigits (coeff d) <= prec -> -100 <= exp d <= 100 ->
  fix_ d = Ok d.
Proof.
  intros Hc Hn He. unfold fix_, is_zero. constants.
  repeat step_if. reflexivity.
Qed.

Lemma fix_zero (s : bool) (e : Z) :
  -100 <= e <= 100 -> fix_ (mk s 0 e) = Ok (mk s 0 e).
Proof.
  intros He. unfold fix_, is_zero. cbn [coeff exp sign]. constants.
  change (0 =? 0) with true. cbv iota. do 2 f_equal. lia.
Qed.

Lemma quantize_cent_noop (s : bool) (c : Z) (m : rounding) :
  0 <= c -> ndigits c <= 26 ->
  quantize (mk s c (-2)) cent m = Ok (mk s c (-2)).
Proof.
  intros Hc Hn. pose proof (ndigits_pos c) as Hp.
  unfold quantize, is_zero, adjusted, cent. cbn [coeff exp sign].
  destruct (Z.eqb_spec c 0) as [->|Hnz].
  - constants. step_if. apply fix_zero. lia.
  - unfold rescale, is_zero. cbn [coeff exp sign].
    destruct (Z.eqb_spec c 0); [lia|].
    change (-2 <=? -2) with true. cbv iota. cbn [coeff exp sign].
    change (10 ^ (-2 - -2)) with 1. rewrite Z.mul_1_r.
    constants. repeat step_if.
    apply fix_small; cbn [coeff exp sign]; unfold prec; lia.
Qed.

Section Int64.

Variable total : Z.
Hypothesis range : - 2 ^ 63 <= total < 2 ^ 63.

Lemma tax_digits : ndigits (Z.abs total * 22) <= 26.
Proof.
  apply ndigits_le with (k := 25%nat). split; [lia|].
  apply Z.le_lt_trans with (2 ^ 63 * 22); [lia|reflexivity].
Qed.

Lemma gross_digits : ndigits (Z.abs total * 122) <= 26.
Proof.
  apply ndigits_le with (k := 25%nat). split; [lia|].
  apply Z.le_lt_trans with (2 ^ 63 * 122); [lia|reflexivity].
Qed.

Lemma mul_rate : mul (of_int total) rate = Ok (tax_exact total).
Proof.
  unfold mul, of_int, rate, tax_exact. cbn [coeff exp sign].
  rewrite xorb_false_r. change (0 + -2) with (-2).
  destruct (Z.eq_dec total 0) as [->|Hnz].
  - apply fix_zero. lia.
  - apply fix_small; cbn [coeff exp sign]; unfold prec;
      pose proof tax_digits; lia.
Qed.

Lemma add_tax : add (of_int total) (tax_exact total) = Ok (gross_exact total).
Proof.
  destruct (Z.eq_dec total 0) as [->|Hnz]; [reflexivity|].
  pose proof (@ndigits_two (Z.abs total * 22)) as H2.
  unfold add, of_int, tax_exact, gross_exact, is_zero, normalize.
  cbn [coeff exp sign].
  destruct (Z.eqb_spec (Z.abs total) 0); [lia|].
  destruct (Z.eqb_spec (Z.abs total * 22) 0); [lia|].
  cbn [andb]. change (0 <? -2) with false. cbv iota.
  cbn [coeff exp sign].
  destruct (Z.ltb_spec (ndigits (Z.abs total * 22) + -2 - 1)
              (0 + Z.min (-1) (ndigits (Z.abs total) - prec - 2)));
    [lia|].
  cbn [coeff exp sign]. rewrite Bool.eqb_reflx.
  replace (Z.abs total * 10 ^ (0 - -2) + Z.abs total * 22)
    with (Z.abs total * 122) by (change (10 ^ (0 - -2)) with 100; lia).
  apply fix_small; cbn [coeff exp sign]; unfold prec;
    pose proof gross_digits; lia.
Qed.

(** Whatever the rounding mode of the two [quantize] calls, the totals
    are the exact ones. *)
Lemma totals_exact (m1 m2 : rounding) :
  (p <- mul (of_int total) rate ;;
   iva <- quantize p cent m1 ;;
   s <- add (of_int total) iva ;;
   ivato <- quantize s cent m2 ;;
   Ok (mkTotals (of_int total) iva ivato)) =
  Ok (mkTotals (of_int total) (tax_exact total) (gross_exact total)).
Proof.
  rewrite mul_rate. cbn [bind].
  unfold tax_exact at 1.
  rewrite quantize_cent_noop by (pose proof tax_digits; lia). cbn [bind].
  fold (tax_exact total). rewrite add_tax. cbn [bind].
  unfold gross_exact at 1.
  rewrite quantize_cent_noop by (pose proof gross_digits; lia).
  reflexivity.
Qed.

End Int64.

End DecimalFacts.

Lemma round_half_up_cents_whole (n : Z) (q : Q) :
  (q == n # 100)%Q -> round_half_up_cents q = n.
Proof.
  intros H. unfold round_half_up_cents, Qeq in *. cbn [Qnum Qden] in H.
  destruct q as [a b]. cbn [Qnum Qden] in *.
  assert (Hb : 0 < Z.pos b) by lia.
  assert (E : 2 * 100 * Z.abs a + Z.pos b = Z.abs n * (2 * Z.pos b) + Z.pos b)
    by nia.
  rewrite E, Z.div_add_l, Z.div_small by lia.
  nia.
Qed.

Lemma value_cents (s : bool) (c : Z) :
  (value (PyDecimal.mk s c (-2)) == cents (PyDecimal.mk s c (-2)) # 100)%Q.
Proof.
  unfold value, cents. cbn [PyDecimal.sign PyDecimal.coeff PyDecimal.exp].
  change ((10 # 1) ^ (-2))%Q with (/ ((10 # 1) * (10 # 1)))%Q.
  unfold Qeq. cbn. lia.
Qed.

Lemma cents_tax (t : Z) : cents (tax_exact t) = t * 22.
Proof.
  unfold cents, tax_exact. cbn [PyDecimal.sign PyDecimal.coeff].
  destruct (Z.ltb_spec t 0); lia.
Qed.

Lemma cents_gross (t : Z) : cents (gross_exact t) = t * 122.
Proof.
  unfold cents, gross_exact. cbn [PyDecimal.sign PyDecimal.coeff].
  destruct (Z.ltb_spec t 0); lia.
Qed.

Lemma totals_of_exact (df : DataFrame) :
  totals_of df =
    Ok (mkTotals (PyDecimal.of_int (column_sum (map TOTALE_JOB df)))
                 (tax_exact (column_sum (map TOTALE_JOB df)))
                 (gross_exact (column_sum (map TOTALE_JOB df)))).
Proof.
  unfold totals_of, totals_from, column_sum.
  apply DecimalFacts.totals_exact, astype_int_range.
Qed.

(** ** More on the totals *)

Module TotalsFacts.

Lemma sum_perm (l1 l2 : list Z) :
  Permutation l1 l2 -> fold_right Z.add 0 l1 = fold_right Z.add 0 l2.
Proof.
  induction 1 as [|x l1 l2 _ IH|x y l|l1 l2 l3 _ IH1 _ IH2];
    cbn [fold_right]; lia.
Qed.

Lemma column_sum_perm (c1 c2 : list Z) :
  Permutation c1 c2 -> column_sum c1 = column_sum c2.
Proof.
  intros P. unfold column_sum. f_equal.
  apply sum_perm, Permutation_map, P.
Qed.

Lemma totals_of_perm (df1 df2 : DataFrame) :
  Permutation df1 df2 -> totals_of df1 = totals_of df2.
Proof.
  intros P. unfold totals_of. f_equal.
  apply column_sum_perm, Permutation_map, P.
Qed.

Lemma two64_nonzero : 2 ^ 64 <> 0.
Proof. discriminate. Qed.

Lemma astype_int_mod (z : Z) : astype_int z mod 2 ^ 64 = z mod 2 ^ 64.
Proof.
  unfold astype_int. rewrite Zminus_mod_idemp_l. f_equal. lia.
Qed.

Lemma astype_int_congr (a b : Z) :
  a mod 2 ^ 64 = b mod 2 ^ 64 -> astype_int a = astype_int b.
Proof.
  intros E. unfold astype_int.
  rewrite <- (Zplus_mod_idemp_l a), <- (Zplus_mod_idemp_l b), E. reflexivity.
Qed.

Lemma sum_wrap (c : list Z) :
  fold_right Z.add 0 (map astype_int c) mod 2 ^ 64
  = fold_right Z.add 0 c mod 2 ^ 64.
Proof.
  induction c as [|a c IH]; [reflexivity|].
  cbn [map fold_right].
  rewrite Z.add_mod by apply two64_nonzero.
  rewrite IH, astype_int_mod.
  rewrite <- Z.add_mod by apply two64_nonzero. reflexivity.
Qed.

Lemma column_sum_wraps (c : list Z) :
  column_sum c = astype_int (fold_right Z.add 0 c).
Proof. unfold column_sum. apply astype_int_congr, sum_wrap. Qed.

End TotalsFacts.

(** C4, as claimed, fails when the job totals sum beyond the signed 64-bit
    range: the two job totals of the text below sum to 2^63, the program's
    total is the sum taken in 64 bits, -2^63, and the tax is negative, not
    [2^63 * 0.22]. *)
Lemma tax_of_overflowing_total :
  let df := [row "0000123" "1" 1 9223372036854775807;
             row "0000123" "2" 1 1] in
  parse_text (chars "0000123 1 1 9223372036854775807" ++ [LF] ++
              chars "0000123 2 1 1") = Ok df
  /\ fold_right Z.add 0 (map TOTALE_JOB df) = 2 ^ 63
  /\ exists t : Totals,
       totals_of df = Ok t
       /\ totale t = PyDecimal.of_int (- 2 ^ 63)
       /\ cents (iva t) = - 2 ^ 63 * 22
       /\ cents (iva t) <>
            round_half_up_cents (inject_Z (2 ^ 63) * (22 # 100))%Q.
Proof.
  cbv zeta. split; [vm_compute; reflexivity|].
  split; [vm_compute; reflexivity|].
  eexists. split; [vm_compute; reflexivity|].
  split; [vm_compute; reflexivity|].
  split; [vm_compute; reflexivity|].
  vm_compute. discriminate.
Qed.

(** C4, amended: for every record set whose job totals sum to a [total]
    within the signed 64-bit range, the calculator succeeds with that
    total, with [tax] equal to [total * 0.22] rounded half away from zero
    to two places and [totalWithTax] equal to [total + tax] rounded the
    same way, both held as decimals with exponent -2 (integer
    coefficients, no binary fraction); a total of 100 gives 22.00 and
    122.00, a total of -50 gives -11.00 and -61.00. *)
Theorem totals_rounded_half_up :
  (forall (df : DataFrame) (total : Z),
     fold_right Z.add 0 (map TOTALE_JOB df) = total ->
     - 2 ^ 63 <= total < 2 ^ 63 ->
     exists t : Totals,
       totals_of df = Ok t
       /\ totale t = PyDecimal.of_int total
       /\ PyDecimal.exp (iva t) = -2
       /\ PyDecimal.exp (ivato t) = -2
       /\ cents (iva t) =
            round_half_up_cents (inject_Z total * (22 # 100))%Q
       /\ cents (ivato t) =
            round_half_up_cents (inject_Z total + value (iva t))%Q)
  /\ totals_from 100 =
       Ok (mkTotals (PyDecimal.mk false 100 0) (PyDecimal.mk false 2200 (-2))
                    (PyDecimal.mk false 12200 (-2)))
  /\ totals_from (-50) =
       Ok (mkTotals (PyDecimal.mk true 50 0) (PyDecimal.mk true 1100 (-2))
                    (PyDecimal.mk true 6100 (-2))).
Proof.
  split; [|split; reflexivity].
  intros df total S R.
  assert (C : column_sum (map TOTALE_JOB df) = total).
  { rewrite TotalsFacts.column_sum_wraps, S. apply astype_int_id, R. }
  exists (mkTotals (PyDecimal.of_int total) (tax_exact total)
                   (gross_exact total)).
  split; [rewrite totals_of_exact, C; reflexivity|].
  cbn [totale iva ivato]. repeat split.
  - rewrite cents_tax. symmetry. apply round_half_up_cents_whole.
    unfold Qeq. cbn. lia.
  - rewrite cents_gross. symmetry. apply round_half_up_cents_whole.
    unfold tax_exact. rewrite value_cents.
    fold (tax_exact total). rewrite cents_tax.
    unfold Qeq. cbn. lia.
Qed.

Lemma totals_rounded_half_up_witness :
  exists t : Totals,
    totals_of [row "0000123" "001" 1 30; row "0000123" "002" 1 (-80)] = Ok t
    /\ totale t = PyDecimal.of_int (-50)
    /\ PyDecimal.exp (iva t) = -2
    /\ PyDecimal.exp (ivato t) = -2
    /\ cents (iva t) =
         round_half_up_cents (inject_Z (-50) * (22 # 100))%Q
    /\ cents (ivato t) =
         round_half_up_cents (inject_Z (-50) + value (iva t))%Q.
Proof.
  apply (proj1 totals_rounded_half_up).
  - reflexivity.
  - split; [discriminate|reflexivity].
Defined.

(** C9: the total being a whole (64-bit) integer, [total * 0.22] has two
    decimal digits and fits the context's precision, so the product is
    exact and each [quantize] returns its argument unchanged, under
    ROUND_HALF_UP as under ROUND_HALF_EVEN: the tax is exactly
    [total * 22 / 100] and the tax-inclusive total exactly [total + tax]. *)
Theorem quantize_is_identity_on_totals :
  forall (df : DataFrame) (m1 m2 : PyDecimal.rounding),
    PyDecimal.mul (PyDecimal.of_int (column_sum (map TOTALE_JOB df))) rate =
      Ok (tax_exact (column_sum (map TOTALE_JOB df)))
    /\ PyDecimal.quantize (tax_exact (column_sum (map TOTALE_JOB df))) cent m1 =
         Ok (tax_exact (column_sum (map TOTALE_JOB df)))
    /\ PyDecimal.add (PyDecimal.of_int (column_sum (map TOTALE_JOB df)))
                     (tax_exact (column_sum (map TOTALE_JOB df))) =
         Ok (gross_exact (column_sum (map TOTALE_JOB df)))
    /\ PyDecimal.quantize (gross_exact (column_sum (map TOTALE_JOB df))) cent m2 =
         Ok (gross_exact (column_sum (map TOTALE_JOB df)))
    /\ totals_of df =
         Ok (mkTotals (PyDecimal.of_int (column_sum (map TOTALE_JOB df)))
                      (tax_exact (column_sum (map TOTALE_JOB df)))
                      (gross_exact (column_sum (map TOTALE_JOB df))))
    /\ (value (tax_exact (column_sum (map TOTALE_JOB df))) ==
         inject_Z (column_sum (map TOTALE_JOB df)) * (22 # 100))%Q
    /\ (value (gross_exact (column_sum (map TOTALE_JOB df))) ==
         inject_Z (column_sum (map TOTALE_JOB df))
         + value (tax_exact (column_sum (map TOTALE_JOB df))))%Q.
Proof.
  intros df m1 m2. set (total := column_sum (map TOTALE_JOB df)).
  assert (R : - 2 ^ 63 <= total < 2 ^ 63) by apply astype_int_range.
  pose proof (DecimalFacts.tax_digits R) as Ht.
  pose proof (DecimalFacts.gross_digits R) as Hg.
  repeat split.
  - apply DecimalFacts.mul_rate, R.
  - apply DecimalFacts.quantize_cent_noop; [lia|exact Ht].
  - apply DecimalFacts.add_tax, R.
  - apply DecimalFacts.quantize_cent_noop; [lia|exact Hg].
  - apply totals_of_exact.
  - unfold tax_exact. rewrite value_cents. fold (tax_exact total).
    rewrite cents_tax. unfold Qeq. cbn. lia.
  - unfold tax_exact, gross_exact. rewrite !value_cents.
    fold (tax_exact total) (gross_exact total).
    rewrite cents_tax, cents_gross. unfold Qeq. cbn. lia.
Qed.

(** ** The currency suffix *)

(** C5 (the code departs from it): the amount is grouped by thousands with
    "." and has two decimals after ",", but the suffix appended is the
    source's literal, which is not the euro sign. *)
Theorem eur_fmt_suffix_is_source_literal :
  eur_fmt (PyDecimal.of_int 1000) = Ok (chars "1.000,00 â‚¬")
  /\ eur_fmt (PyDecimal.of_int 0) = Ok (chars "0,00 â‚¬")
  /\ eur_fmt (PyDecimal.of_int (-61)) = Ok (chars "-61,00 â‚¬")
  /\ eur_fmt (PyDecimal.mk false 12345 (-1)) = Ok (chars "1.234,50 â‚¬")
  /\ eur_fmt (PyDecimal.of_int 1000) <> Ok (chars "1.000,00 €")
  /\ eur_fmt (PyDecimal.of_int 0) <> Ok (chars "0,00 €")
  /\ eur_fmt (PyDecimal.of_int (-61)) <> Ok (chars "-61,00 €").
Proof.
  repeat split; try (vm_compute; reflexivity); vm_compute; discriminate.
Qed.

(** ** The driver *)

Section ProgramFacts.

Variable basename : string -> string.
Variable splitext : string -> string * string.
Variable dirname : string -> string.
Variable abspath : string -> string.
Variable getcwd : string.
Variable join : string -> string -> string.
Variable render : Story -> text.

Let process_file' :=
  process_file basename splitext dirname abspath getcwd join render.
Let process_all' :=
  process_all basename splitext dirname abspath getcwd join render.
Let main' := main basename splitext dirname abspath getcwd join render.

Lemma process_all_stops (pre post : list string) (f : string) :
  forall (created0 created : list string) (w w1 w2 : World) (e : exn),
    process_all' pre created0 w = (w1, Ok created) ->
    process_file' f w1 = (w2, Raise e) ->
    process_all' (pre ++ f :: post) created0 w =
      (mkWorld (stdout w2 ++ [diagnostic f e]) (store w2) (writable w2),
       Raise e).
Proof.
  subst process_all' process_file'.
  induction pre as [|a pre IH]; intros created0 created w w1 w2 e Hpre Hf.
  - cbn in Hpre. unfold ret in Hpre. injection Hpre as <- _.
    cbn [app process_all]. unfold io_bind, try_except.
    rewrite Hf. reflexivity.
  - cbn [app process_all] in *. unfold io_bind, try_except in *.
    destruct (process_file basename splitext dirname abspath getcwd join
                render a w) as [wa [ca|ea]].
    + eapply IH; eassumption.
    + cbn in Hpre. discriminate.
Qed.

(** C8: when the files before [f] are processed and processing [f]
    raises, [main] prints the diagnostic naming [f] and ends with the same
    exception; the console and the files are as [f]'s failure left them,
    so none of the files after [f] is touched. *)
Theorem main_fails_fast :
  forall (args pre post : list string) (f : string)
         (created : list string) (w w1 w2 : World) (e : exn),
    filter (isfile w) args = pre ++ f :: post ->
    process_all' pre [] w = (w1, Ok created) ->
    process_file' f w1 = (w2, Raise e) ->
    main' args w =
      (mkWorld (stdout w2 ++ [diagnostic f e]) (store w2) (writable w2),
       Raise e).
Proof.
  intros args pre post f created w w1 w2 e Hfiles Hpre Hf.
  subst main'. unfold main. rewrite Hfiles.
  destruct (pre ++ f :: post) eqn:E; [destruct pre; discriminate|].
  rewrite <- E. unfold io_bind at 1.
  fold process_all'.
  erewrite process_all_stops; [reflexivity|eassumption|eassumption].
Qed.

End ProgramFacts.

Lemma main_fails_fast_witness :
  let w1 := fst (demo_process_all ["ok.txt"%string] [] demo_world) in
  let w2 := fst (demo_process_file "bad.txt" w1) in
  demo_main ["ok.txt"; "bad.txt"; "later.txt"]%string demo_world =
    (mkWorld (stdout w2 ++ [diagnostic "bad.txt" (ValueError no_rows_msg)])
             (store w2) (writable w2),
     Raise (ValueError no_rows_msg))
  /\ stdout w2 =
       [ "Elaborazione: ok.txt"; "Righe estratte: 1";
         "PDF generato: out/ok.txt_Riepilogo_Garanzie.pdf";
         "Elaborazione: bad.txt" ]%string
  /\ store w2 "out/later.txt_Riepilogo_Garanzie.pdf"%string = None.
Proof.
  intros w1 w2. split; [|split; vm_compute; reflexivity].
  unfold demo_main.
  apply main_fails_fast
    with (pre := ["ok.txt"%string]) (post := ["later.txt"%string])
         (created := ["out/ok.txt_Riepilogo_Garanzie.pdf"%string])
         (w1 := w1).
  - vm_compute. reflexivity.
  - fold demo_process_all. subst w1.
    rewrite (surjective_pairing (demo_process_all _ _ _)) at 1.
    f_equal; vm_compute; reflexivity.
  - fold demo_process_file. subst w2.
    rewrite (surjective_pairing (demo_process_file _ _)) at 1.
    f_equal; vm_compute; reflexivity.
Defined.


(** ** Comparisons *)

#[export] Instance Z_order : Order Z.compare.
Proof.
  split.
  - apply Z.compare_eq_iff.
  - intros a b. apply Z.compare_antisym.
  - intros a b c. rewrite !Z.compare_lt_iff. lia.
Qed.

#[export] Instance N_order : Order N.compare.
Proof.
  split.
  - apply N.compare_eq_iff.
  - intros a b. apply N.compare_antisym.
  - intros a b c. rewrite !N.compare_lt_iff. lia.
Qed.

Lemma code_inj (x y : ascii) : code x = code y -> x = y.
Proof.
  unfold code. intros H.
  rewrite <- (ascii_N_embedding x), <- (ascii_N_embedding y), H. reflexivity.
Qed.

#[export] Instance text_order : Order text_compare.
Proof.
  split.
  - induction a as [|x a IH]; destruct b as [|y b]; simpl;
      try (split; (discriminate || reflexivity)).
    destruct (N.compare_spec (code x) (code y)) as [E|L|L].
    + apply code_inj in E. subst y. rewrite IH.
      split; [intros ->; reflexivity|intros [=]; assumption].
    + split; [discriminate|intros [= -> _]; lia].
    + split; [discriminate|intros [= -> _]; lia].
  - induction a as [|x a IH]; destruct b as [|y b]; simpl; try reflexivity.
    rewrite (N.compare_antisym (code x) (code y)).
    destruct (N.compare (code x) (code y)); simpl; auto.
  - induction a as [|x a IH]; intros [|y b] [|z c]; simpl;
      try discriminate; try reflexivity.
    destruct (N.compare_spec (code x) (code y)) as [E|L|L];
      destruct (N.compare_spec (code y) (code z)) as [E'|L'|L'];
      destruct (N.compare_spec (code x) (code z)) as [E''|L''|L''];
      try discriminate; try reflexivity; try lia; intros; eauto.
Qed.

#[export] Instance cell_order : Order cell_compare.
Proof.
  split.
  - intros [x|x] [y|y]; simpl; try (split; discriminate).
    + rewrite (cmp_eq (cmp := Z.compare)).
      split; [intros ->; reflexivity|intros [=]; assumption].
    + rewrite (cmp_eq (cmp := text_compare)).
      split; [intros ->; reflexivity|intros [=]; assumption].
  - intros [x|x] [y|y]; simpl; try reflexivity.
    + apply (cmp_antisym (cmp := Z.compare)).
    + apply (cmp_antisym (cmp := text_compare)).
  - intros [x|x] [y|y] [z|z]; simpl; try discriminate; try reflexivity.
    + apply (cmp_trans (cmp := Z.compare)).
    + apply (cmp_trans (cmp := text_compare)).
Qed.

Section Lexicographic.

Context {A B : Type} (cmpA : A -> A -> comparison)
        (cmpB : B -> B -> comparison).
Context `{OA : !Order cmpA} `{OB : !Order cmpB}.

#[export] Instance lex_order : Order (lex cmpA cmpB).
Proof.
  split.
  - intros [a b] [a' b']. unfold lex. simpl.
    destruct (cmpA a a') eqn:E.
    + apply cmp_eq in E. subst a'. rewrite cmp_eq.
      split; [intros ->; reflexivity|intros [=]; assumption].
    + split; [discriminate|].
      intros [= <- _]. assert (cmpA a a = Eq) by (apply cmp_eq; reflexivity).
      congruence.
    + split; [discriminate|].
      intros [= <- _]. assert (cmpA a a = Eq) by (apply cmp_eq; reflexivity).
      congruence.
  - intros [a b] [a' b']. unfold lex. simpl.
    rewrite (cmp_antisym (cmp := cmpA) a a').
    destruct (cmpA a a'); simpl; auto. apply cmp_antisym.
  - intros [a b] [a' b'] [a'' b'']. unfold lex. simpl.
    destruct (cmpA a a') eqn:E1; try discriminate;
      destruct (cmpA a' a'') eqn:E2; try discriminate; intros H1 H2.
    + apply cmp_eq in E1, E2. subst a' a''.
      assert (E : cmpA a a = Eq) by (apply cmp_eq; reflexivity).
      rewrite E. eapply cmp_trans; eassumption.
    + apply cmp_eq in E1. subst a'. rewrite E2. reflexivity.
    + apply cmp_eq in E2. subst a''. rewrite E1. reflexivity.
    + rewrite (cmp_trans _ _ _ E1 E2). reflexivity.
Qed.

End Lexicographic.

Lemma key_compare_lex (k1 k2 : sort_key) :
  key_compare k1 k2 = lex (lex cell_compare cell_compare) cell_compare k1 k2.
Proof.
  destruct k1 as [[a1 b1] c1], k2 as [[a2 b2] c2]. unfold lex. simpl.
  destruct (cell_compare a1 a2), (cell_compare b1 b2); reflexivity.
Qed.

#[export] Instance key_order : Order key_compare.
Proof.
  pose proof (lex_order (cmpA := lex cell_compare cell_compare)
                        (cmpB := cell_compare)) as O.
  split; intros; rewrite ?key_compare_lex in *.
  - apply cmp_eq.
  - apply cmp_antisym.
  - eapply cmp_trans; eassumption.
Qed.

Lemma key_compare_refl (k : sort_key) : key_compare k k = Eq.
Proof. apply cmp_eq. reflexivity. Qed.

Lemma key_is_eq (k1 k2 : sort_key) : key_is k1 k2 = true <-> k1 = k2.
Proof.
  unfold key_is. rewrite <- (cmp_eq (cmp := key_compare)).
  destruct (key_compare k1 k2); split; congruence.
Qed.

Lemma key_leb_refl (k : sort_key) : key_leb k k = true.
Proof. unfold key_leb. rewrite key_compare_refl. reflexivity. Qed.

Lemma key_leb_total (a b : sort_key) :
  key_leb a b = false -> key_leb b a = true.
Proof.
  unfold key_leb. rewrite (cmp_antisym (cmp := key_compare) a b).
  destruct (key_compare a b); simpl; congruence.
Qed.

Lemma key_leb_trans (a b c : sort_key) :
  key_leb a b = true -> key_leb b c = true -> key_leb a c = true.
Proof.
  unfold key_leb.
  destruct (key_compare a b) eqn:E1; try discriminate;
    destruct (key_compare b c) eqn:E2; try discriminate; intros _ _.
  - apply cmp_eq in E1. subst b. rewrite E2. reflexivity.
  - apply cmp_eq in E1. subst b. rewrite E2. reflexivity.
  - apply cmp_eq in E2. subst c. rewrite E1. reflexivity.
  - rewrite (cmp_trans _ _ _ E1 E2). reflexivity.
Qed.

Lemma key_leb_antisym (a b : sort_key) :
  key_leb a b = true -> key_leb b a = true -> a = b.
Proof.
  unfold key_leb. rewrite (cmp_antisym (cmp := key_compare) a b).
  destruct (key_compare a b) eqn:E; simpl; try discriminate; intros _ _.
  apply cmp_eq. assumption.
Qed.

(** ** The stable sort *)

Section Lexsort.

Variable A : Type.

Implicit Types (x y : sort_key * A) (l : list (sort_key * A)).

Lemma insert_keyed_perm x l : Permutation (insert_keyed x l) (x :: l).
Proof.
  induction l as [|y l IH]; simpl.
  - reflexivity.
  - destruct (key_leb (fst x) (fst y)).
    + reflexivity.
    + rewrite IH. apply perm_swap.
Qed.

Lemma lexsort_perm l : Permutation (lexsort l) l.
Proof.
  induction l as [|x l IH]; simpl.
  - reflexivity.
  - rewrite insert_keyed_perm. constructor. assumption.
Qed.

Lemma insert_keyed_hd a x l :
  key_leb (fst a) (fst x) = true ->
  HdRel (fun u v => key_leb (fst u) (fst v) = true) a l ->
  HdRel (fun u v => key_leb (fst u) (fst v) = true) a (insert_keyed x l).
Proof.
  intros Hax H. destruct l as [|y l]; simpl.
  - constructor. assumption.
  - destruct (key_leb (fst x) (fst y)); constructor.
    + assumption.
    + inversion H. assumption.
Qed.

Lemma insert_keyed_sorted x l :
  Sorted (fun u v => key_leb (fst u) (fst v) = true) l ->
  Sorted (fun u v => key_leb (fst u) (fst v) = true) (insert_keyed x l).
Proof.
  induction l as [|y l IH]; simpl; intros S.
  - repeat constructor.
  - destruct (key_leb (fst x) (fst y)) eqn:E.
    + constructor; [assumption|]. constructor. assumption.
    + inversion S as [|? ? S' H]; subst.
      constructor; [apply IH; assumption|].
      apply insert_keyed_hd; [apply key_leb_total|]; assumption.
Qed.

Lemma lexsort_sorted l :
  StronglySorted (fun u v => key_leb (fst u) (fst v) = true) (lexsort l).
Proof.
  apply Sorted_StronglySorted.
  - intros u v w. apply key_leb_trans.
  - induction l as [|x l IH]; simpl.
    + constructor.
    + apply insert_keyed_sorted. assumption.
Qed.

(** Elements of one key keep their order when one more is inserted. *)
Lemma insert_keyed_stable (k : sort_key) x l :
  filter (fun u => key_is (fst u) k) (insert_keyed x l) =
  filter (fun u => key_is (fst u) k) (x :: l).
Proof.
  induction l as [|y l IH]; simpl.
  - reflexivity.
  - destruct (key_leb (fst x) (fst y)) eqn:E; simpl.
    + reflexivity.
    + rewrite IH. simpl.
      destruct (key_is (fst x) k) eqn:Ex, (key_is (fst y) k) eqn:Ey;
        try reflexivity.
      apply key_is_eq in Ex, Ey. rewrite Ex, Ey, key_leb_refl in E.
      discriminate.
Qed.

Lemma lexsort_stable (k : sort_key) l :
  filter (fun u => key_is (fst u) k) (lexsort l) =
  filter (fun u => key_is (fst u) k) l.
Proof.
  induction l as [|x l IH]; simpl.
  - reflexivity.
  - rewrite insert_keyed_stable. simpl. rewrite IH. reflexivity.
Qed.

End Lexsort.

(** ** Sorting rows on their key columns *)

Section KeyedRows.

Variable B : Type.
Variable f : B -> sort_key.

Lemma keyed_map_snd (l : list B) : map snd (map (fun r => (f r, r)) l) = l.
Proof. rewrite map_map. simpl. apply map_id. Qed.

Lemma keyed_forall (l : list B) :
  Forall (fun u => fst u = f (snd u)) (map (fun r => (f r, r)) l).
Proof. apply Forall_forall. intros u [r [<- _]]%in_map_iff. reflexivity. Qed.

Lemma sorted_map_snd (l : list (sort_key * B)) :
  Forall (fun u => fst u = f (snd u)) l ->
  StronglySorted (fun u v => key_leb (fst u) (fst v) = true) l ->
  StronglySorted (fun a b => key_leb (f a) (f b) = true) (map snd l).
Proof.
  induction l as [|u l IH]; simpl; intros F S.
  - constructor.
  - inversion F as [|? ? Hu F']; subst. inversion S as [|? ? S' H]; subst.
    constructor; [apply IH; assumption|].
    apply Forall_forall. intros b [v [<- Hv]]%in_map_iff.
    rewrite Forall_forall in F', H.
    rewrite <- Hu, <- (F' v Hv). apply H. assumption.
Qed.

Lemma filter_map_snd (k : sort_key) (l : list (sort_key * B)) :
  Forall (fun u => fst u = f (snd u)) l ->
  filter (fun r => key_is (f r) k) (map snd l) =
  map snd (filter (fun u => key_is (fst u) k) l).
Proof.
  induction l as [|u l IH]; simpl; intros F.
  - reflexivity.
  - inversion F as [|? ? Hu F']; subst. rewrite <- Hu.
    destruct (key_is (fst u) k); simpl; rewrite IH by assumption; reflexivity.
Qed.

(** Sorting the rows paired with their keys. *)
Lemma sort_rows_perm (l : list B) :
  Permutation (map snd (lexsort (map (fun r => (f r, r)) l))) l.
Proof.
  rewrite lexsort_perm. rewrite keyed_map_snd. reflexivity.
Qed.

Lemma sort_rows_sorted (l : list B) :
  StronglySorted (fun a b => key_leb (f a) (f b) = true)
                 (map snd (lexsort (map (fun r => (f r, r)) l))).
Proof.
  apply sorted_map_snd.
  - eapply Permutation_Forall; [symmetry; apply lexsort_perm|].
    apply keyed_forall.
  - apply lexsort_sorted.
Qed.

Lemma sort_rows_stable (k : sort_key) (l : list B) :
  filter (fun r => key_is (f r) k)
         (map snd (lexsort (map (fun r => (f r, r)) l))) =
  filter (fun r => key_is (f r) k) l.
Proof.
  rewrite filter_map_snd.
  - rewrite lexsort_stable. rewrite <- filter_map_snd by apply keyed_forall.
    rewrite keyed_map_snd. reflexivity.
  - eapply Permutation_Forall; [symmetry; apply lexsort_perm|].
    apply keyed_forall.
Qed.

(** A sorted permutation that keeps rows of equal key in order is unique. *)
Lemma sorted_stable_unique (l1 : list B) :
  forall l2 : list B,
    Permutation l1 l2 ->
    StronglySorted (fun a b => key_leb (f a) (f b) = true) l1 ->
    StronglySorted (fun a b => key_leb (f a) (f b) = true) l2 ->
    (forall k, filter (fun r => key_is (f r) k) l1 =
               filter (fun r => key_is (f r) k) l2) ->
    l1 = l2.
Proof.
  induction l1 as [|a l1 IH]; intros l2 P S1 S2 F.
  - apply Permutation_nil in P. congruence.
  - destruct l2 as [|b l2].
    { symmetry in P. apply Permutation_nil in P. discriminate. }
    inversion S1 as [|? ? S1' H1]; subst.
    inversion S2 as [|? ? S2' H2]; subst.
    rewrite Forall_forall in H1, H2.
    assert (Hab : key_leb (f a) (f b) = true).
    { assert (I : In b (a :: l1))
        by (eapply Permutation_in; [symmetry; exact P|left; reflexivity]).
      destruct I as [->|I]; [apply key_leb_refl|apply H1; assumption]. }
    assert (Hba : key_leb (f b) (f a) = true).
    { assert (I : In a (b :: l2))
        by (eapply Permutation_in; [exact P|left; reflexivity]).
      destruct I as [->|I]; [apply key_leb_refl|apply H2; assumption]. }
    pose proof (key_leb_antisym _ _ Hab Hba) as K.
    assert (E : a = b).
    { specialize (F (f a)). simpl in F.
      assert (Ka : key_is (f a) (f a) = true) by (apply key_is_eq; reflexivity).
      assert (Kb : key_is (f b) (f a) = true) by (apply key_is_eq; congruence).
      rewrite Ka, Kb in F. congruence. }
    subst b. f_equal. apply IH; try assumption.
    + eapply Permutation_cons_inv. exact P.
    + intros k. specialize (F k). simpl in F.
      destruct (key_is (f a) k); congruence.
Qed.

End KeyedRows.

(** ** The key columns of [sort_values] *)

Lemma int_literals_parses (c : list text) :
  int_literals c = if forallb parses c then Some (values c) else None.
Proof.
  induction c as [|s c IH]; simpl.
  - reflexivity.
  - rewrite IH.
    change (parses s)
      with (match to_numeric s with Some _ => true | None => false end).
    destruct (to_numeric s); cbn [andb fillna]; [|reflexivity].
    destruct (forallb parses c); reflexivity.
Qed.

Lemma numeric_column_parses (c : list text) :
  numeric_column c = if numeric_like c then Some (values c) else None.
Proof.
  unfold numeric_column, numeric_like. rewrite int_literals_parses.
  destruct (forallb parses c); [|reflexivity].
  cbn [andb].
  destruct (forallb in_64bit (values c) && negb (sign_conflict (values c)));
    reflexivity.
Qed.

Lemma numeric_column_some (c : list text) :
  forall zs, numeric_column c = Some zs ->
             zs = map (fun s => fillna 0 (to_numeric s)) c.
Proof.
  intros zs H. rewrite numeric_column_parses in H.
  destruct (numeric_like c); [|discriminate].
  injection H as <-. reflexivity.
Qed.

Lemma column_kind_parses (c : list text) :
  column_kind c = if numeric_like c then Numeric else Textual.
Proof.
  unfold column_kind. rewrite numeric_column_parses.
  destruct (numeric_like c); reflexivity.
Qed.

Lemma key_of_text_column_kind (c : list text) :
  key_of_text_column c = map (field_key (column_kind c)) c.
Proof.
  unfold key_of_text_column, column_kind.
  destruct (numeric_column c) as [zs|] eqn:E.
  - rewrite (numeric_column_some c E), map_map. reflexivity.
  - reflexivity.
Qed.

Lemma zip3_map (B : Type) (f1 f2 f3 : B -> cell) (l : list B) :
  zip3 (map f1 l) (map f2 l) (map f3 l) = map (fun r => (f1 r, f2 r, f3 r)) l.
Proof. induction l as [|r l IH]; simpl; [|rewrite IH]; reflexivity. Qed.

Lemma combine_map_self (B C : Type) (f : B -> C) (l : list B) :
  combine (map f l) l = map (fun r => (f r, r)) l.
Proof. induction l as [|r l IH]; simpl; [|rewrite IH]; reflexivity. Qed.

Lemma sort_values_keyed (df : DataFrame) :
  sort_values df =
  map snd (lexsort (map (fun r =>
    (row_key (column_kind (map NUMERO_GARANZIA df))
             (column_kind (map SUFFISSO df)) r, r)) df)).
Proof.
  unfold sort_values, sort_keys, key_of_int_column.
  rewrite !key_of_text_column_kind, !map_map.
  rewrite (zip3_map
             (fun r => field_key (column_kind (map NUMERO_GARANZIA df))
                                 (NUMERO_GARANZIA r))
             (fun r => field_key (column_kind (map SUFFISSO df)) (SUFFISSO r))
             (fun r => KInt (JOB r)) df).
  rewrite combine_map_self. reflexivity.
Qed.

Lemma sort_values_perm (df : DataFrame) : Permutation (sort_values df) df.
Proof. rewrite sort_values_keyed. apply sort_rows_perm. Qed.

Lemma sort_values_sorted (df : DataFrame) :
  StronglySorted (row_le df) (sort_values df).
Proof. rewrite sort_values_keyed. apply sort_rows_sorted. Qed.

Lemma sort_values_stable (df : DataFrame) (k : sort_key) :
  with_key df k (sort_values df) = with_key df k df.
Proof. rewrite sort_values_keyed. unfold with_key. apply sort_rows_stable. Qed.

(** ** Dropping duplicates *)

Lemma text_eqb_eq (a b : text) : text_eqb a b = true <-> a = b.
Proof.
  unfold text_eqb. destruct (list_eq_dec ascii_dec a b); split; congruence.
Qed.

Lemma key_eqb_eq (k1 k2 : text * text * Z) : key_eqb k1 k2 = true <-> k1 = k2.
Proof.
  destruct k1 as [[g1 s1] j1], k2 as [[g2 s2] j2]. unfold key_eqb.
  rewrite !andb_true_iff, !text_eqb_eq, Z.eqb_eq.
  split; [intros [[-> ->] ->]; reflexivity|intros [= -> -> ->]; auto].
Qed.

Lemma key_eqb_refl (k : text * text * Z) : key_eqb k k = true.
Proof. apply key_eqb_eq. reflexivity. Qed.

Lemma existsb_key_in (k : text * text * Z) (l : list (text * text * Z)) :
  existsb (key_eqb k) l = true <-> In k l.
Proof.
  rewrite existsb_exists. split.
  - intros [k' [I E]]. apply key_eqb_eq in E. congruence.
  - intros I. exists k. split; [assumption|apply key_eqb_refl].
Qed.

Lemma existsb_key_ext (k : text * text * Z) (l1 l2 : list (text * text * Z)) :
  (forall x, In x l1 <-> In x l2) ->
  existsb (key_eqb k) l1 = existsb (key_eqb k) l2.
Proof.
  intros H. apply eq_true_iff_eq. rewrite !existsb_key_in. apply H.
Qed.

(** A row added at the end survives exactly when no earlier row, and no key
    seen before, has its key; the rows before it fare as they did. *)
Lemma drop_duplicates_from_snoc (l : DataFrame) (r : Row) :
  forall seen,
    drop_duplicates_from seen (l ++ [r]) =
    drop_duplicates_from seen l ++
    (if existsb (key_eqb (subset_key r)) (map subset_key l ++ seen)
     then [] else [r]).
Proof.
  induction l as [|a l IH]; intros seen; simpl.
  - destruct (existsb (key_eqb (subset_key r)) seen); reflexivity.
  - destruct (existsb (key_eqb (subset_key a)) seen) eqn:E.
    + rewrite IH. f_equal.
      destruct (key_eqb (subset_key r) (subset_key a)) eqn:K; simpl;
        [|reflexivity].
      apply key_eqb_eq in K. rewrite K, existsb_app, E, orb_true_r.
      reflexivity.
    + rewrite IH. simpl. do 2 f_equal.
      change (key_eqb (subset_key r) (subset_key a)
              || existsb (key_eqb (subset_key r)) (map subset_key l ++ seen))
        with (existsb (key_eqb (subset_key r))
                (subset_key a :: map subset_key l ++ seen)).
      rewrite (existsb_key_ext (subset_key r)
                 (map subset_key l ++ subset_key a :: seen)
                 (subset_key a :: map subset_key l ++ seen)); [reflexivity|].
      intros x. simpl. rewrite !in_app_iff. simpl. tauto.
Qed.

Lemma drop_duplicates_from_first (k : text * text * Z) (l : DataFrame) :
  forall seen,
    filter (fun x => key_eqb (subset_key x) k) (drop_duplicates_from seen l) =
    if existsb (key_eqb k) seen then []
    else match find (fun x => key_eqb (subset_key x) k) l with
         | Some x => [x]
         | None => []
         end.
Proof.
  induction l as [|a l IH]; intros seen; simpl.
  - destruct (existsb (key_eqb k) seen); reflexivity.
  - destruct (existsb (key_eqb (subset_key a)) seen) eqn:E.
    + rewrite IH. destruct (key_eqb (subset_key a) k) eqn:K; [|reflexivity].
      apply key_eqb_eq in K. rewrite <- K, E. reflexivity.
    + simpl. rewrite IH. simpl.
      destruct (key_eqb (subset_key a) k) eqn:K.
      * apply key_eqb_eq in K. subst k. rewrite key_eqb_refl, E. reflexivity.
      * assert (K' : key_eqb k (subset_key a) = false).
        { destruct (key_eqb k (subset_key a)) eqn:K'; [|reflexivity].
          apply key_eqb_eq in K'. subst k. rewrite key_eqb_refl in K.
          discriminate. }
        rewrite K'. reflexivity.
Qed.

Lemma permutation_filter (B : Type) (p : B -> bool) (l1 l2 : list B) :
  Permutation l1 l2 -> Permutation (filter p l1) (filter p l2).
Proof.
  induction 1 as [|x l1 l2 _ IH|x y l|l1 l2 l3 _ IH1 _ IH2]; simpl.
  - constructor.
  - destruct (p x); [constructor|]; assumption.
  - destruct (p x), (p y); try reflexivity. apply perm_swap.
  - etransitivity; eassumption.
Qed.

Lemma normalize_perm (df : DataFrame) :
  Permutation (normalize df) (drop_duplicates df).
Proof. apply sort_values_perm. Qed.

Lemma normalize_first (df : DataFrame) (r : Row) :
  same_subset r (normalize df) =
  match find (fun x => key_eqb (subset_key x) (subset_key r)) df with
  | Some x => [x]
  | None => []
  end.
Proof.
  unfold same_subset.
  pose proof (permutation_filter
                (fun x => key_eqb (subset_key x) (subset_key r))
                (normalize_perm df)) as P.
  unfold drop_duplicates in P.
  rewrite (drop_duplicates_from_first (subset_key r) df []) in P.
  simpl in P.
  destruct (find (fun x => key_eqb (subset_key x) (subset_key r)) df).
  - symmetry in P. apply Permutation_length_1_inv in P. exact P.
  - symmetry in P. apply Permutation_nil in P. exact P.
Qed.


Lemma find_app_first (B : Type) (p : B -> bool) (l1 l2 : list B) (a : B) :
  (forall x, In x l1 -> p x = false) -> p a = true ->
  find p (l1 ++ a :: l2) = Some a.
Proof.
  intros H Ha. induction l1 as [|x l1 IH]; simpl.
  - rewrite Ha. reflexivity.
  - rewrite (H x) by (left; reflexivity).
    apply IH. intros y I. apply H. right. assumption.
Qed.

(** C2: dropping duplicates removes exactly the records whose
    (guaranteeNumber, suffix, job) triple is that of an earlier record: a
    record appended to a record set survives exactly when no record before
    it has its triple, and the records before it are kept or dropped as
    without it, in their order; sorting then only permutes the survivors.
    So of the records sharing a triple the normalized set holds exactly the
    first-occurring one; in particular, of two records with the same triple
    and different jobTotal only the first is kept. *)
Theorem normalization_keeps_first_occurrences :
  (forall (df : DataFrame) (r : Row),
     drop_duplicates (df ++ [r]) =
     drop_duplicates df ++
     (if existsb (key_eqb (subset_key r)) (map subset_key df)
      then [] else [r]))
  /\ (forall df : DataFrame, Permutation (normalize df) (drop_duplicates df))
  /\ (forall (df : DataFrame) (r : Row),
        same_subset r (normalize df) =
        match find (fun x => key_eqb (subset_key x) (subset_key r)) df with
        | Some x => [x]
        | None => []
        end)
  /\ (forall (l1 l2 l3 : DataFrame) (a b : Row),
        subset_key a = subset_key b ->
        TOTALE_JOB a <> TOTALE_JOB b ->
        ~ In (subset_key a) (map subset_key l1) ->
        same_subset a (normalize (l1 ++ a :: l2 ++ b :: l3)) = [a]
        /\ ~ In b (normalize (l1 ++ a :: l2 ++ b :: l3))).
Proof.
  split; [|split; [|split]].
  - intros df r. unfold drop_duplicates.
    rewrite drop_duplicates_from_snoc, app_nil_r. reflexivity.
  - apply normalize_perm.
  - apply normalize_first.
  - intros l1 l2 l3 a b K T N.
    assert (F : same_subset a (normalize (l1 ++ a :: l2 ++ b :: l3)) = [a]).
    { rewrite normalize_first, find_app_first; [reflexivity| |].
      - intros x I. destruct (key_eqb (subset_key x) (subset_key a)) eqn:E;
          [|reflexivity].
        apply key_eqb_eq in E. exfalso. apply N. rewrite <- E.
        apply in_map. assumption.
      - apply key_eqb_refl. }
    split; [exact F|].
    intros I.
    assert (I' : In b (same_subset a (normalize (l1 ++ a :: l2 ++ b :: l3)))).
    { unfold same_subset. apply filter_In. split; [assumption|].
      apply key_eqb_eq. symmetry. assumption. }
    rewrite F in I'. destruct I' as [->|[]]. apply T. reflexivity.
Qed.

Lemma normalization_keeps_first_occurrences_witness :
  same_subset (row "0000123" "001" 1 100)
    (normalize ([row "0000001" "5" 2 7] ++
                row "0000123" "001" 1 100 ::
                [] ++ row "0000123" "001" 1 999 ::
                [row "0000123" "002" 1 50])) =
  [row "0000123" "001" 1 100]
  /\ ~ In (row "0000123" "001" 1 999)
          (normalize ([row "0000001" "5" 2 7] ++
                      row "0000123" "001" 1 100 ::
                      [] ++ row "0000123" "001" 1 999 ::
                      [row "0000123" "002" 1 50])).
Proof.
  apply (proj2 (proj2 (proj2 normalization_keeps_first_occurrences))).
  - reflexivity.
  - vm_compute. discriminate.
  - vm_compute. intros [H|[]]. discriminate.
Defined.

(** ** Digit runs as numbers *)

Lemma digit_not_minus (c : ascii) : is_digit c = true -> is_minus c = false.
Proof.
  unfold is_digit, is_minus, in_range.
  rewrite andb_true_iff, N.leb_le, N.leb_le. intros [H1 H2].
  apply N.eqb_neq. lia.
Qed.

Lemma digit_value_range (c : ascii) :
  is_digit c = true -> 0 <= Z.of_N (code c) - 48 <= 9.
Proof.
  unfold is_digit, in_range.
  rewrite andb_true_iff, N.leb_le, N.leb_le. lia.
Qed.

Lemma digits_value_some (s : text) :
  forallb is_digit s = true ->
  forall acc, 0 <= acc -> exists z, acc <= z /\ digits_value acc s = Some z.
Proof.
  induction s as [|c s IH]; simpl; intros H acc Hacc.
  - exists acc. split; [lia|reflexivity].
  - apply andb_true_iff in H. destruct H as [Hc Hs]. rewrite Hc.
    pose proof (digit_value_range c Hc) as R.
    destruct (IH Hs (10 * acc + (Z.of_N (code c) - 48))) as [z [Hz E]];
      [lia|].
    exists z. split; [lia|assumption].
Qed.

Lemma to_numeric_digits (s : text) :
  digits_only s = true ->
  to_numeric s = digits_value 0 s
  /\ exists z, 0 <= z /\ to_numeric s = Some z.
Proof.
  destruct s as [|c s]; [discriminate|]. intros H.
  unfold digits_only in H.
  assert (Hc : is_digit c = true)
    by (simpl in H; apply andb_true_iff in H; tauto).
  assert (E : to_numeric (c :: s) = digits_value 0 (c :: s)).
  { unfold to_numeric. rewrite (digit_not_minus c Hc). reflexivity. }
  split; [exact E|].
  rewrite E. destruct (digits_value_some (c :: s) H (acc := 0)) as [z [Hz Ez]];
    [lia|].
  exists z. split; assumption.
Qed.

Lemma digits_only_parses (s : text) : digits_only s = true -> parses s = true.
Proof.
  intros H. destruct (to_numeric_digits s H) as [_ [z [_ E]]].
  unfold parses. rewrite E. reflexivity.
Qed.














(** ** The matcher *)

Module SreFacts.

Import Sre.

Lemma span_le_length (cls : ascii -> bool) (s : text) :
  forall hi, (span cls hi s <= length s)%nat.
Proof.
  induction s as [|c s IH]; intros hi.
  - destruct hi as [[|h]|]; simpl; lia.
  - destruct hi as [[|h]|]; simpl; try lia.
    + destruct (cls c); [|lia]. specialize (IH (Some h)). simpl in IH. lia.
    + destruct (cls c); [|lia]. specialize (IH None). simpl in IH. lia.
Qed.

Lemma span_cap (cls : ascii -> bool) (s : text) :
  forall h, (span cls (Some h) s <= h)%nat.
Proof.
  induction s as [|c s IH]; intros [|h]; simpl; try lia.
  destruct (cls c); [|lia]. specialize (IH h). lia.
Qed.

Lemma span_forallb (cls : ascii -> bool) (s : text) :
  forall hi i, (i <= span cls hi s)%nat -> forallb cls (firstn i s) = true.
Proof.
  induction s as [|c s IH]; intros hi i H.
  - rewrite firstn_nil. reflexivity.
  - destruct i as [|i]; [reflexivity|].
    destruct hi as [[|h]|]; simpl in H; try lia;
      destruct (cls c) eqn:E; try lia; simpl; rewrite E; simpl;
      eapply IH; apply le_S_n; exact H.
Qed.

Lemma span_app (cls : ascii -> bool) (s t : text) :
  forall hi, (span cls hi s <= span cls hi (s ++ t))%nat.
Proof.
  induction s as [|c s IH]; intros hi.
  - destruct hi as [[|h]|]; simpl; lia.
  - destruct hi as [[|h]|]; simpl; try lia.
    + destruct (cls c); [|lia]. specialize (IH (Some h)). simpl in IH. lia.
    + destruct (cls c); [|lia]. specialize (IH None). simpl in IH. lia.
Qed.

Lemma prev_after_nil (prev : option ascii) : prev_after prev [] = prev.
Proof. reflexivity. Qed.

Lemma prev_after_cons (prev : option ascii) (c : ascii) (w : text) :
  prev_after prev (c :: w) = prev_after (Some c) w.
Proof.
  unfold prev_after. simpl. destruct (rev w); reflexivity.
Qed.

Lemma prev_after_some (p p' : option ascii) (w : text) :
  w <> [] -> prev_after p w = prev_after p' w.
Proof.
  destruct w as [|c w]; [congruence|]. intros _.
  rewrite !prev_after_cons. reflexivity.
Qed.

Lemma prev_after_app (prev : option ascii) (w1 w2 : text) :
  prev_after prev (w1 ++ w2) = prev_after (prev_after prev w1) w2.
Proof.
  revert prev. induction w1 as [|c w1 IH]; intros prev; simpl.
  - reflexivity.
  - rewrite !prev_after_cons. apply IH.
Qed.

Section Backtrack.

Variable R : Type.
Variable k : option ascii -> text -> option R.
Variable prev : option ascii.
Variable s : text.
Variable lo : nat.

Lemma backtrack_some (n : nat) (r : R) :
  backtrack k prev s lo n = Some r ->
  exists i, (lo <= i <= n)%nat
            /\ k (prev_after prev (firstn i s)) (skipn i s) = Some r.
Proof.
  induction n as [|n IH]; cbn [backtrack].
  - destruct (Nat.ltb_spec 0 lo) as [L|L]; [discriminate|].
    destruct (k (prev_after prev (firstn 0 s)) (skipn 0 s)) eqn:E;
      [|discriminate].
    intros H. injection H as <-. exists 0%nat. split; [lia|exact E].
  - destruct (Nat.ltb_spec (S n) lo) as [L|L]; [discriminate|].
    destruct (k (prev_after prev (firstn (S n) s)) (skipn (S n) s)) eqn:E.
    + intros H. injection H as <-. exists (S n). split; [lia|exact E].
    + intros H. destruct (IH H) as [i [Hi Ei]]. exists i. split; [lia|exact Ei].
Qed.

Lemma backtrack_complete (n i : nat) :
  (lo <= i <= n)%nat ->
  k (prev_after prev (firstn i s)) (skipn i s) <> None ->
  backtrack k prev s lo n <> None.
Proof.
  induction n as [|n IH]; intros Hi Hk.
  - assert (i = 0%nat) by lia. subst i.
    cbn [backtrack]. destruct (Nat.ltb_spec 0 lo) as [L|L]; [lia|].
    destruct (k (prev_after prev (firstn 0 s)) (skipn 0 s));
      [discriminate|congruence].
  - cbn [backtrack]. destruct (Nat.ltb_spec (S n) lo) as [L|L]; [lia|].
    destruct (k (prev_after prev (firstn (S n) s)) (skipn (S n) s)) eqn:E;
      [discriminate|].
    destruct (Nat.eq_dec i (S n)) as [->|N]; [congruence|].
    apply IH; [lia|assumption].
Qed.

End Backtrack.

(** A repetition consumes a run [w] of its class. *)
Lemma repeat_sound (cls : ascii -> bool) (lo : nat) (hi : option nat)
      (ops : list op) (prev : option ascii) (s : text)
      (opens groups : list text) (r : list text * text) :
  sre_match (REPEAT cls lo hi :: ops) prev s opens groups = Some r ->
  exists w s',
    s = w ++ s' /\ forallb cls w = true /\ (lo <= length w)%nat
    /\ (forall h, hi = Some h -> (length w <= h)%nat)
    /\ sre_match ops (prev_after prev w) s' opens groups = Some r.
Proof.
  cbn [sre_match]. intros H.
  apply backtrack_some in H. destruct H as [i [Hi H]].
  pose proof (span_le_length cls s hi) as L.
  exists (firstn i s), (skipn i s).
  assert (Len : length (firstn i s) = i) by (apply firstn_length_le; lia).
  repeat split.
  - symmetry. apply firstn_skipn.
  - eapply span_forallb. apply Hi.
  - lia.
  - intros h ->. pose proof (span_cap cls s h). lia.
  - exact H.
Qed.

Lemma capture_prefix (w s : text) :
  firstn (length (w ++ s) - length s) (w ++ s) = w.
Proof.
  rewrite length_app, Nat.add_sub.
  rewrite firstn_app, Nat.sub_diag, firstn_all. simpl. apply app_nil_r.
Qed.

End SreFacts.

Module RowFacts.

Import Sre SreFacts.

Lemma at_bol_sound (ops : list op) (prev : option ascii) (s : text)
      (opens groups : list text) (r : list text * text) :
  sre_match (AT_BOL :: ops) prev s opens groups = Some r ->
  at_bol prev = true /\ sre_match ops prev s opens groups = Some r.
Proof.
  cbn [sre_match]. destruct (at_bol prev); [auto|discriminate].
Qed.

Lemma at_boundary_sound (ops : list op) (prev : option ascii) (s : text)
      (opens groups : list text) (r : list text * text) :
  sre_match (AT_BOUNDARY :: ops) prev s opens groups = Some r ->
  at_boundary prev s = true /\ sre_match ops prev s opens groups = Some r.
Proof.
  cbn [sre_match]. destruct (at_boundary prev s); [auto|discriminate].
Qed.

Lemma mark_open_eq (ops : list op) (prev : option ascii) (s : text)
      (opens groups : list text) :
  sre_match (MARK_OPEN :: ops) prev s opens groups
  = sre_match ops prev s (s :: opens) groups.
Proof. reflexivity. Qed.

Lemma mark_close_eq (ops : list op) (prev : option ascii) (s o : text)
      (opens groups : list text) :
  sre_match (MARK_CLOSE :: ops) prev s (o :: opens) groups
  = sre_match ops prev s opens (firstn (length o - length s) o :: groups).
Proof. reflexivity. Qed.

(** The shape of a match of the record pattern: white space, seven digits,
    and three more digit runs set apart by white space, the last one with
    an optional minus sign. *)
Lemma row_match_shape (prev : option ascii) (s : text)
      (groups : list text) (rest : text) :
  sre_match ROW_RE prev s [] [] = Some (groups, rest) ->
  exists w0 g1 w1 g2 w2 g3 w3 m d,
    s = w0 ++ g1 ++ w1 ++ g2 ++ w2 ++ g3 ++ w3 ++ m ++ d ++ rest
    /\ groups = [g1; g2; g3; m ++ d]
    /\ length g1 = 7%nat /\ forallb is_digit g1 = true
    /\ digits_only g2 = true /\ digits_only g3 = true
    /\ forallb is_minus m = true /\ (length m <= 1)%nat
    /\ digits_only d = true.
Proof.
  unfold ROW_RE. intros H.
  apply at_bol_sound in H. destruct H as [_ H].
  apply repeat_sound in H. destruct H as (w0 & s0 & -> & _ & _ & _ & H).
  rewrite mark_open_eq in H.
  apply repeat_sound in H. destruct H as (g1 & s1 & -> & D1 & L1 & U1 & H).
  rewrite mark_close_eq, capture_prefix in H.
  apply repeat_sound in H. destruct H as (w1 & s2 & -> & _ & _ & _ & H).
  rewrite mark_open_eq in H.
  apply repeat_sound in H. destruct H as (g2 & s3 & -> & D2 & L2 & _ & H).
  rewrite mark_close_eq, capture_prefix in H.
  apply repeat_sound in H. destruct H as (w2 & s4 & -> & _ & _ & _ & H).
  rewrite mark_open_eq in H.
  apply repeat_sound in H. destruct H as (g3 & s5 & -> & D3 & L3 & _ & H).
  rewrite mark_close_eq, capture_prefix in H.
  apply repeat_sound in H. destruct H as (w3 & s6 & -> & _ & _ & _ & H).
  rewrite mark_open_eq in H.
  apply repeat_sound in H. destruct H as (m & s7 & -> & Dm & _ & Um & H).
  apply repeat_sound in H. destruct H as (d & s8 & -> & Dd & Ld & _ & H).
  rewrite mark_close_eq, (app_assoc m d s8), capture_prefix in H.
  apply at_boundary_sound in H. destruct H as [_ H].
  cbn [sre_match rev app] in H. injection H as <- <-.
  exists w0, g1, w1, g2, w2, g3, w3, m, d.
  specialize (U1 _ eq_refl). specialize (Um _ eq_refl).
  assert (N : forall g, forallb is_digit g = true -> (1 <= length g)%nat ->
                        digits_only g = true).
  { intros [|c g] F L; [simpl in L; lia|exact F]. }
  repeat split; auto; lia.
Qed.

(** Every entry of the scan's result is the groups of a match of the
    pattern at some offset. *)
Lemma findall_from_in (ops : list op) (s : text) :
  forall prev skip g,
    In g (findall_from ops prev s skip) ->
    exists p s' rest, sre_match ops p s' [] [] = Some (g, rest).
Proof.
  induction s as [|c s IH]; intros prev skip g.
  - destruct skip as [|skip]; cbn [findall_from]; [|intros []].
    destruct (sre_match ops prev [] [] []) as [[gs rest]|] eqn:E; [|intros []].
    intros [<-|[]]. eauto.
  - destruct skip as [|skip]; cbn [findall_from]; [|apply IH].
    destruct (sre_match ops prev (c :: s) [] []) as [[gs rest]|] eqn:E;
      [|apply IH].
    intros [<-|I]; [eauto|eapply IH; exact I].
Qed.

(** The scan finds nothing exactly when the pattern matches at no offset. *)
Lemma findall_from_nil (ops : list op) (s : text) :
  forall prev,
    findall_from ops prev s 0 = [] <->
    (forall i, (i <= length s)%nat ->
               sre_match ops (prev_after prev (firstn i s)) (skipn i s) [] []
               = None).
Proof.
  induction s as [|c s IH]; intros prev; cbn [findall_from].
  - destruct (sre_match ops prev [] [] []) as [[gs rest]|] eqn:E; split.
    + discriminate.
    + intros H. specialize (H 0%nat (Nat.le_refl _)).
      cbn in H. congruence.
    + intros _ i Hi. destruct i; [exact E|simpl in Hi; lia].
    + reflexivity.
  - destruct (sre_match ops prev (c :: s) [] []) as [[gs rest]|] eqn:E; split.
    + discriminate.
    + intros H. specialize (H 0%nat (Nat.le_0_l _)).
      cbn in H. congruence.
    + intros H [|i] Hi; [exact E|].
      cbn [firstn skipn]. rewrite prev_after_cons.
      apply (proj1 (IH (Some c)) H). simpl in Hi. lia.
    + intros H. apply IH. intros i Hi.
      specialize (H (S i)). cbn [firstn skipn] in H.
      rewrite prev_after_cons in H. apply H. simpl. lia.
Qed.

Lemma matches_somewhere_false (t : text) :
  matches_somewhere t = false <-> findall ROW_RE t = [].
Proof.
  unfold findall. rewrite findall_from_nil.
  unfold matches_somewhere. split.
  - intros H i Hi.
    assert (M : matches_at t i = false).
    { destruct (matches_at t i) eqn:E; [|reflexivity].
      assert (X : existsb (matches_at t) (seq 0 (S (length t))) = true).
      { apply existsb_exists. exists i. split; [|exact E].
        apply in_seq. lia. }
      congruence. }
    unfold matches_at in M.
    destruct (sre_match ROW_RE (prev_after None (firstn i t)) (skipn i t) [] []);
      [discriminate|reflexivity].
  - intros H.
    destruct (existsb (matches_at t) (seq 0 (S (length t)))) eqn:E;
      [|reflexivity].
    apply existsb_exists in E. destruct E as (i & I & M).
    apply in_seq in I. unfold matches_at in M.
    rewrite H in M by lia. discriminate.
Qed.

Lemma matches_at_offset (pre rest : text) :
  sre_match ROW_RE (prev_after None pre) rest [] [] <> None ->
  matches_somewhere (pre ++ rest) = true.
Proof.
  intros H. unfold matches_somewhere. apply existsb_exists.
  exists (length pre). split.
  - apply in_seq. rewrite length_app. lia.
  - unfold matches_at.
    rewrite firstn_app, Nat.sub_diag, firstn_all, skipn_app, Nat.sub_diag,
      skipn_all.
    cbn [firstn skipn app]. rewrite app_nil_r.
    destruct (sre_match ROW_RE (prev_after None pre) rest [] []);
      [reflexivity|congruence].
Qed.

(** Rows are built from exactly four groups. *)
Lemma frame_of_matches_ok (Q : text -> text -> text -> text -> Prop)
      (ms : list (list text)) :
  Forall (fun g => exists a b c d, g = [a; b; c; d] /\ Q a b c d) ms ->
  exists rows,
    frame_of_matches ms = Ok rows
    /\ length rows = length ms
    /\ Forall (fun r => let '(a, b, c, d) := r in Q a b c d) rows.
Proof.
  induction 1 as [|g ms (a & b & c & d & -> & q) _ (rows & E & L & F)].
  - exists []. repeat split. constructor.
  - exists ((a, b, c, d) :: rows). cbn [frame_of_matches]. rewrite E.
    repeat split; [simpl; congruence|constructor; assumption].
Qed.

Lemma findall_fields (t : text) :
  Forall (fun g => exists a b c d, g = [a; b; c; d] /\ fields_ok a b c d)
         (findall ROW_RE t).
Proof.
  apply Forall_forall. intros g I.
  apply findall_from_in in I. destruct I as (p & s' & rest & M).
  apply row_match_shape in M.
  destruct M as (w0 & g1 & w1 & g2 & w2 & g3 & w3 & m & d & _ & -> & L & D
                 & D2 & _).
  exists g1, g2, g3, (m ++ d). repeat split; assumption.
Qed.

Lemma in_int64_astype (z : Z) : in_int64 (astype_int z) = true.
Proof.
  pose proof (astype_int_range z) as [L U]. unfold in_int64.
  apply andb_true_intro. split; [apply Z.leb_le|apply Z.ltb_lt]; assumption.
Qed.

Lemma convert_row_well_formed (a b c d : text) :
  fields_ok a b c d -> well_formed (convert_row (a, b, c, d)) = true.
Proof.
  intros (L & D & S). unfold well_formed, convert_row.
  cbn [NUMERO_GARANZIA SUFFISSO JOB TOTALE_JOB].
  rewrite L, D, S, !in_int64_astype. reflexivity.
Qed.

(** Extraction either finds no match and raises the "no valid rows" error,
    or returns one well-formed record per match. *)
Lemma extract_cases (t : text) :
  (findall ROW_RE t = [] /\ extract t = Raise (ValueError no_rows_msg))
  \/ (exists df, findall ROW_RE t <> [] /\ extract t = Ok df
                 /\ length df = length (findall ROW_RE t)
                 /\ forallb well_formed df = true).
Proof.
  unfold extract. cbv zeta.
  destruct (frame_of_matches_ok fields_ok (findall_fields t))
    as (rows & E & L & F).
  destruct (findall ROW_RE t) as [|g ms] eqn:M.
  - left. split; reflexivity.
  - right. rewrite E. exists (map convert_row rows).
    repeat split.
    + discriminate.
    + rewrite length_map. exact L.
    + apply forallb_forall. intros r [[[[a b] c] d] [<- I]]%in_map_iff.
      rewrite Forall_forall in F. specialize (F _ I).
      apply convert_row_well_formed, F.
Qed.

Lemma well_formed_digit_fields (df : DataFrame) :
  forallb well_formed df = true -> forallb digit_fields df = true.
Proof.
  rewrite !forallb_forall. intros H r I. specialize (H r I).
  unfold well_formed in H. unfold digit_fields.
  apply andb_true_iff in H. destruct H as [H _].
  apply andb_true_iff in H. destruct H as [H _].
  apply andb_true_iff in H. destruct H as [H S].
  apply andb_true_iff in H. destruct H as [L D].
  rewrite S, andb_true_r. apply Nat.eqb_eq in L.
  unfold digits_only. destruct (NUMERO_GARANZIA r); [discriminate L|exact D].
Qed.

(** A match survives when text that does not start with a word character
    is appended, and when the character before it is replaced by one that
    is as much a line start and as much a word character. *)
Lemma sre_match_extend (t : text) (T : word_at (hd_error t) = false)
      (ops : list op) :
  forall prev prev' s opens opens' groups groups',
    at_bol prev = at_bol prev' -> word_at prev = word_at prev' ->
    length opens = length opens' ->
    sre_match ops prev s opens groups <> None ->
    sre_match ops prev' (s ++ t) opens' groups' <> None.
Proof.
  induction ops as [|o ops IH];
    intros prev prev' s opens opens' groups groups' B W L H.
  - cbn [sre_match]. discriminate.
  - destruct o as [| |cls lo hi| |]; cbn [sre_match] in H |- *.
    + rewrite <- B. destruct (at_bol prev) eqn:Bp; [|congruence].
      apply IH with (prev := prev) (opens := opens) (groups := groups);
        [congruence|exact W|exact L|exact H].
    + assert (A : at_boundary prev' (s ++ t) = at_boundary prev s).
      { unfold at_boundary. rewrite <- W. f_equal.
        destruct s; [simpl; exact T|reflexivity]. }
      rewrite A. destruct (at_boundary prev s); [|congruence].
      apply IH with (prev := prev) (opens := opens) (groups := groups);
        assumption.
    + destruct (backtrack (fun p s' => sre_match ops p s' opens groups)
                          prev s lo (span cls hi s)) as [r|] eqn:E;
        [|congruence].
      apply backtrack_some in E. destruct E as (i & Hi & E).
      pose proof (span_le_length cls s hi) as S1.
      pose proof (span_app cls s t hi) as S2.
      apply backtrack_complete with (i := i); [lia|].
      rewrite firstn_app, skipn_app.
      replace (i - length s)%nat with 0%nat by lia.
      cbn [firstn skipn]. rewrite app_nil_r.
      eapply IH; [| |exact L|rewrite E; discriminate].
      * destruct (firstn i s) as [|c w] eqn:F; [exact B|].
        rewrite (@prev_after_some prev prev' (c :: w)); [reflexivity|].
        discriminate.
      * destruct (firstn i s) as [|c w] eqn:F; [exact W|].
        rewrite (@prev_after_some prev prev' (c :: w)); [reflexivity|].
        discriminate.
    + eapply IH; try eassumption. simpl. congruence.
    + destruct opens as [|o opens]; [congruence|].
      destruct opens' as [|o' opens']; [discriminate L|].
      eapply IH; try eassumption. simpl in L. congruence.
Qed.

(** Every line lies in the text between line feeds or the text's ends. *)
Lemma lines_spec (t : text) :
  exists l0 ls,
    lines t = l0 :: ls
    /\ (exists suf,
           t = l0 ++ suf
           /\ (suf = [] \/ exists c suf', suf = c :: suf' /\ code c = 10%N))
    /\ (forall l, In l ls ->
          exists pre c suf,
            t = (pre ++ [c]) ++ l ++ suf /\ code c = 10%N
            /\ (suf = [] \/ exists c' suf', suf = c' :: suf' /\ code c' = 10%N)).
Proof.
  induction t as [|c t (l0 & ls & E & (suf0 & T0 & S0) & R)].
  - exists [], []. repeat split.
    + exists []. split; [reflexivity|left; reflexivity].
    + intros l [].
  - cbn [lines]. destruct (N.eqb_spec (code c) 10) as [C|C].
    + exists [], (lines t). repeat split.
      * exists (c :: t). split; [reflexivity|]. right. eauto.
      * rewrite E. intros l [<-|I].
        -- exists [], c, suf0. rewrite T0 at 1. repeat split; assumption.
        -- destruct (R l I) as (pre & c' & suf & T & C' & S).
           exists (c :: pre), c', suf. rewrite T at 1.
           repeat split; assumption.
    + rewrite E. exists (c :: l0), ls. repeat split.
      * exists suf0. rewrite T0 at 1. split; [reflexivity|exact S0].
      * intros l I. destruct (R l I) as (pre & c' & suf & T & C' & S).
        exists (c :: pre), c', suf. rewrite T at 1.
        repeat split; assumption.
Qed.

Lemma line_feed_not_word (c : ascii) : code c = 10%N -> is_word c = false.
Proof. unfold is_word. cbv zeta. intros ->. reflexivity. Qed.

Lemma line_end_not_word (suf : text) :
  suf = [] \/ (exists c suf', suf = c :: suf' /\ code c = 10%N) ->
  word_at (hd_error suf) = false.
Proof.
  intros [->|(c & suf' & -> & C)]; [reflexivity|].
  simpl. apply line_feed_not_word, C.
Qed.

(** A line that matches on its own is matched at its offset in the text. *)
Lemma line_match_extends (t l : text) :
  In l (lines t) -> line_matches l = true -> matches_somewhere t = true.
Proof.
  intros I M.
  assert (M' : sre_match ROW_RE None l [] [] <> None).
  { unfold line_matches in M.
    destruct (sre_match ROW_RE None l [] []); [discriminate|discriminate M]. }
  destruct (lines_spec t) as (l0 & ls & E & (suf0 & T0 & S0) & R).
  rewrite E in I. destruct I as [<-|I].
  - rewrite T0. apply (@matches_at_offset [] (l0 ++ suf0)).
    apply sre_match_extend with (prev := None) (opens := []) (groups := []);
      auto using line_end_not_word.
  - destruct (R l I) as (pre & c & suf & T & C & S).
    rewrite T. apply matches_at_offset.
    rewrite prev_after_app. cbn [prev_after rev app].
    apply sre_match_extend with (prev := None) (opens := []) (groups := []);
      auto using line_end_not_word.
    + simpl. symmetry. apply N.eqb_eq, C.
    + simpl. symmetry. apply line_feed_not_word, C.
Qed.

(** A match of the record pattern contains a digit. *)
Lemma match_has_digit (prev : option ascii) (s : text)
      (r : list text * text) :
  sre_match ROW_RE prev s [] [] = Some r -> existsb is_digit s = true.
Proof.
  destruct r as [groups rest]. intros M.
  apply row_match_shape in M.
  destruct M as (w0 & g1 & w1 & g2 & w2 & g3 & w3 & m & d & -> & _ & L & D & _).
  rewrite !existsb_app.
  destruct g1 as [|c g1]; [discriminate L|].
  simpl in D. apply andb_true_iff in D. destruct D as [D _].
  simpl. rewrite D. simpl. apply orb_true_r.
Qed.

Lemma no_digit_no_match (t : text) :
  existsb is_digit t = false -> matches_somewhere t = false.
Proof.
  intros N. unfold matches_somewhere.
  destruct (existsb (matches_at t) (seq 0 (S (length t)))) eqn:E;
    [|reflexivity].
  apply existsb_exists in E. destruct E as (i & _ & M).
  unfold matches_at in M.
  destruct (sre_match ROW_RE (prev_after None (firstn i t)) (skipn i t) [] [])
    as [r|] eqn:S; [|discriminate].
  apply match_has_digit in S.
  rewrite <- (firstn_skipn i t), existsb_app, S, orb_true_r in N.
  discriminate.
Qed.

End RowFacts.

(** ** The extractor's result *)







(** C6, as claimed, fails on a record that runs over a line break: no line
    of the text matches the pattern, yet extraction returns the record. *)
Lemma no_line_matches_yet_extraction_succeeds :
  existsb line_matches (lines cross_line_text) = false
  /\ extract cross_line_text = Ok [row "0000123" "001" 1 100].
Proof. split; vm_compute; reflexivity. Qed.

(** C6, amended: extraction raises the "no valid rows" error exactly when
    the pattern matches at no offset of the whole text, and succeeds
    otherwise; it raises nothing else.  If some line matches on its own,
    extraction succeeds whatever the other lines are; a text without any
    digit raises the error. *)
Theorem extract_fails_iff_no_match (t : text) :
  (extract t = Raise (ValueError no_rows_msg) <-> matches_somewhere t = false)
  /\ ((exists df, extract t = Ok df) <-> matches_somewhere t = true)
  /\ (existsb line_matches (lines t) = true -> exists df, extract t = Ok df)
  /\ (existsb is_digit t = false ->
      extract t = Raise (ValueError no_rows_msg)).
Proof.
  assert (A : extract t = Raise (ValueError no_rows_msg)
              <-> matches_somewhere t = false).
  { rewrite RowFacts.matches_somewhere_false.
    destruct (RowFacts.extract_cases t) as [[F R]|(df & N & E & _)].
    - split; intros _; assumption.
    - split; [rewrite E; discriminate|intros F; contradiction]. }
  assert (B : (exists df, extract t = Ok df) <-> matches_somewhere t = true).
  { destruct (RowFacts.extract_cases t) as [[F R]|(df & N & E & _)].
    - apply RowFacts.matches_somewhere_false in F. rewrite F, R.
      split; [intros [df D]; discriminate D|discriminate].
    - split; [intros _|intros _; exists df; exact E].
      destruct (matches_somewhere t) eqn:M; [reflexivity|].
      apply RowFacts.matches_somewhere_false in M. contradiction. }
  repeat split; try apply A; try apply B.
  - intros X. apply B. apply existsb_exists in X.
    destruct X as (l & I & M). eapply RowFacts.line_match_extends; eassumption.
  - intros X. apply A, RowFacts.no_digit_no_match, X.
Qed.

Lemma extract_fails_iff_no_match_witness :
  existsb line_matches (lines scenario_text) = true
  /\ exists df, extract scenario_text = Ok df.
Proof.
  split; [vm_compute; reflexivity|].
  apply (proj1 (proj2 (proj2 (extract_fails_iff_no_match scenario_text)))).
  vm_compute. reflexivity.
Defined.

(** ** What the pattern accepts *)

Module AcceptFacts.

Import Sre SreFacts RowFacts.

Lemma digit_not_space (c : ascii) : is_digit c = true -> is_space c = false.
Proof.
  destruct c as [[] [] [] [] [] [] [] []]; intros H;
    solve [reflexivity | discriminate H].
Qed.

Lemma space_not_digit (c : ascii) : is_space c = true -> is_digit c = false.
Proof.
  destruct c as [[] [] [] [] [] [] [] []]; intros H;
    solve [reflexivity | discriminate H].
Qed.

Lemma space_not_minus (c : ascii) : is_space c = true -> is_minus c = false.
Proof.
  destruct c as [[] [] [] [] [] [] [] []]; intros H;
    solve [reflexivity | discriminate H].
Qed.

Lemma minus_not_space (c : ascii) : is_minus c = true -> is_space c = false.
Proof.
  destruct c as [[] [] [] [] [] [] [] []]; intros H;
    solve [reflexivity | discriminate H].
Qed.

Lemma minus_not_digit (c : ascii) : is_minus c = true -> is_digit c = false.
Proof.
  destruct c as [[] [] [] [] [] [] [] []]; intros H;
    solve [reflexivity | discriminate H].
Qed.

Lemma digit_is_word (c : ascii) : is_digit c = true -> is_word c = true.
Proof.
  unfold is_word, is_digit. cbv zeta. intros ->. reflexivity.
Qed.

Lemma not_word_not_digit (c : ascii) : is_word c = false -> is_digit c = false.
Proof.
  intros W. destruct (is_digit c) eqn:D; [|reflexivity].
  apply digit_is_word in D. congruence.
Qed.

(** The greedy run stops at the first character outside the class. *)
Lemma span_stop (cls : ascii -> bool) (w rest : text) :
  forall hi,
    forallb cls w = true ->
    (forall h, hi = Some h -> (length w <= h)%nat) ->
    (forall c, hd_error rest = Some c -> cls c = false) ->
    span cls hi (w ++ rest) = length w.
Proof.
  induction w as [|c w IH]; intros hi F B S.
  - cbn [app length]. destruct rest as [|c rest].
    + destruct hi as [[|h]|]; reflexivity.
    + specialize (S c eq_refl).
      destruct hi as [[|h]|]; cbn [span]; try rewrite S; reflexivity.
  - cbn [forallb] in F. apply andb_true_iff in F. destruct F as [Fc F].
    destruct hi as [[|h]|].
    + specialize (B 0%nat eq_refl). simpl in B. lia.
    + cbn [app span length option_map pred]. rewrite Fc. f_equal.
      apply IH; [exact F| |exact S].
      intros h' [= <-]. specialize (B _ eq_refl). simpl in B. lia.
    + cbn [app span length option_map]. rewrite Fc. f_equal.
      apply IH; [exact F|discriminate|exact S].
Qed.

(** A bounded run that fills its bound stops there. *)
Lemma span_full (cls : ascii -> bool) (w rest : text) :
  forallb cls w = true ->
  span cls (Some (length w)) (w ++ rest) = length w.
Proof.
  induction w as [|c w IH]; intros F.
  - destruct rest; reflexivity.
  - cbn [forallb] in F. apply andb_true_iff in F. destruct F as [Fc F].
    cbn [app span length option_map pred]. rewrite Fc. f_equal. apply IH, F.
Qed.

Lemma backtrack_first (R : Type) (k : option ascii -> text -> option R)
      (prev : option ascii) (s : text) (lo n : nat) (r : R) :
  (lo <= n)%nat ->
  k (prev_after prev (firstn n s)) (skipn n s) = Some r ->
  backtrack k prev s lo n = Some r.
Proof.
  intros L K. destruct n as [|n]; cbn [backtrack].
  - destruct (Nat.ltb_spec 0 lo) as [X|X]; [lia|]. rewrite K. reflexivity.
  - destruct (Nat.ltb_spec (S n) lo) as [X|X]; [lia|]. rewrite K. reflexivity.
Qed.

(** A repetition whose greedy run is [w] continues after [w] when the rest
    of the pattern matches there. *)
Lemma repeat_greedy (cls : ascii -> bool) (lo : nat) (hi : option nat)
      (ops : list op) (prev : option ascii) (w rest : text)
      (opens groups : list text) (r : list text * text) :
  (lo <= length w)%nat ->
  span cls hi (w ++ rest) = length w ->
  sre_match ops (prev_after prev w) rest opens groups = Some r ->
  sre_match (REPEAT cls lo hi :: ops) prev (w ++ rest) opens groups = Some r.
Proof.
  intros L S K. cbn [sre_match]. rewrite S.
  apply backtrack_first; [exact L|].
  rewrite firstn_app, Nat.sub_diag, firstn_all, skipn_app, Nat.sub_diag,
    skipn_all.
  cbn [firstn skipn app]. rewrite app_nil_r. exact K.
Qed.

Lemma at_bol_eq (ops : list op) (prev : option ascii) (s : text)
      (opens groups : list text) :
  at_bol prev = true ->
  sre_match (AT_BOL :: ops) prev s opens groups
  = sre_match ops prev s opens groups.
Proof. intros B. cbn [sre_match]. rewrite B. reflexivity. Qed.

Lemma at_boundary_eq (ops : list op) (prev : option ascii) (s : text)
      (opens groups : list text) :
  at_boundary prev s = true ->
  sre_match (AT_BOUNDARY :: ops) prev s opens groups
  = sre_match ops prev s opens groups.
Proof. intros B. cbn [sre_match]. rewrite B. reflexivity. Qed.

Lemma hd_error_app (w rest : text) :
  w <> [] -> hd_error (w ++ rest) = hd_error w.
Proof. destruct w; [congruence|reflexivity]. Qed.

(** The first character of a non-empty run of a class is in the class. *)
Lemma hd_class (cls : ascii -> bool) (w rest : text) (c : ascii) :
  w <> [] -> forallb cls w = true ->
  hd_error (w ++ rest) = Some c -> cls c = true.
Proof.
  destruct w as [|a w]; [congruence|]. intros _ F [= <-].
  cbn [forallb] in F. apply andb_true_iff in F. apply F.
Qed.

(** The last character of a non-empty run of a class is in the class. *)
Lemma last_class (cls : ascii -> bool) (w : text) :
  forall prev, w <> [] -> forallb cls w = true ->
               exists c, prev_after prev w = Some c /\ cls c = true.
Proof.
  induction w as [|a w IH]; intros prev N F; [congruence|].
  cbn [forallb] in F. apply andb_true_iff in F. destruct F as [Fa F].
  rewrite prev_after_cons. destruct w as [|b w].
  - exists a. split; [reflexivity|exact Fa].
  - apply IH; [discriminate|exact F].
Qed.

Lemma digits_only_spec (w : text) :
  digits_only w = true <-> w <> [] /\ forallb is_digit w = true.
Proof.
  destruct w as [|c w]; cbn [digits_only].
  - split; [discriminate|intros [N _]; congruence].
  - split; [intros F; split; [discriminate|exact F]|intros [_ F]; exact F].
Qed.

Lemma spaces_only_spec (w : text) :
  spaces_only w = true <-> w <> [] /\ forallb is_space w = true.
Proof.
  destruct w as [|c w]; cbn [spaces_only].
  - split; [discriminate|intros [N _]; congruence].
  - split; [intros F; split; [discriminate|exact F]|intros [_ F]; exact F].
Qed.

Lemma nonempty_length (w : text) : w <> [] -> (1 <= length w)%nat.
Proof. destruct w; [congruence|simpl; lia]. Qed.

(** The pattern takes a record laid out as it describes: white space,
    seven digits, and three digit runs after white space, the last one
    with an optional minus sign, up to a character that is not a word
    character. *)
Lemma row_match_complete (prev : option ascii)
      (w0 g w1 s w2 j w3 m d rest : text) :
  at_bol prev = true ->
  forallb is_space w0 = true ->
  length g = 7%nat -> forallb is_digit g = true ->
  spaces_only w1 = true -> digits_only s = true ->
  spaces_only w2 = true -> digits_only j = true ->
  spaces_only w3 = true ->
  forallb is_minus m = true -> (length m <= 1)%nat ->
  digits_only d = true ->
  word_at (hd_error rest) = false ->
  sre_match ROW_RE prev
            (w0 ++ g ++ w1 ++ s ++ w2 ++ j ++ w3 ++ m ++ d ++ rest) [] []
  = Some ([g; s; j; m ++ d], rest).
Proof.
  intros B F0 Lg Fg W1 S W2 J W3 Fm Lm D T.
  apply spaces_only_spec in W1, W2, W3. apply digits_only_spec in S, J, D.
  destruct W1 as [N1 F1], W2 as [N2 F2], W3 as [N3 F3].
  destruct S as [Ns Fs], J as [Nj Fj], D as [Nd Fd].
  assert (Ng : g <> []) by (intros ->; discriminate Lg).
  unfold ROW_RE. rewrite at_bol_eq by exact B.
  apply repeat_greedy; [lia| |].
  { apply span_stop; [exact F0|discriminate|].
    intros c H. apply digit_not_space.
    exact (@hd_class is_digit g _ c Ng Fg H). }
  rewrite mark_open_eq.
  apply repeat_greedy; [lia|rewrite <- Lg; apply span_full, Fg|].
  rewrite mark_close_eq, capture_prefix.
  apply repeat_greedy; [apply nonempty_length, N1| |].
  { apply span_stop; [exact F1|discriminate|].
    intros c H. apply digit_not_space.
    exact (@hd_class is_digit s _ c Ns Fs H). }
  rewrite mark_open_eq.
  apply repeat_greedy; [apply nonempty_length, Ns| |].
  { apply span_stop; [exact Fs|discriminate|].
    intros c H. apply space_not_digit.
    exact (@hd_class is_space w2 _ c N2 F2 H). }
  rewrite mark_close_eq, capture_prefix.
  apply repeat_greedy; [apply nonempty_length, N2| |].
  { apply span_stop; [exact F2|discriminate|].
    intros c H. apply digit_not_space.
    exact (@hd_class is_digit j _ c Nj Fj H). }
  rewrite mark_open_eq.
  apply repeat_greedy; [apply nonempty_length, Nj| |].
  { apply span_stop; [exact Fj|discriminate|].
    intros c H. apply space_not_digit.
    exact (@hd_class is_space w3 _ c N3 F3 H). }
  rewrite mark_close_eq, capture_prefix.
  apply repeat_greedy; [apply nonempty_length, N3| |].
  { apply span_stop; [exact F3|discriminate|].
    intros c H. destruct m as [|a m].
    - apply digit_not_space. exact (@hd_class is_digit d _ c Nd Fd H).
    - apply minus_not_space.
      refine (@hd_class is_minus (a :: m) _ c _ Fm H). discriminate. }
  rewrite mark_open_eq.
  apply repeat_greedy; [lia| |].
  { apply span_stop; [exact Fm| |].
    - intros h E. injection E as <-. exact Lm.
    - intros c H. apply digit_not_minus.
      exact (@hd_class is_digit d _ c Nd Fd H). }
  apply repeat_greedy; [apply nonempty_length, Nd| |].
  { apply span_stop; [exact Fd|discriminate|].
    intros c H. apply not_word_not_digit.
    rewrite H in T. exact T. }
  rewrite mark_close_eq, (app_assoc m d rest), capture_prefix.
  destruct (@last_class is_digit d (prev_after (prev_after (prev_after
              (prev_after (prev_after (prev_after (prev_after (prev_after prev
              w0) g) w1) s) w2) j) w3) m) Nd Fd) as (c & P & Dc).
  rewrite at_boundary_eq.
  - reflexivity.
  - unfold at_boundary. rewrite P, T. cbn [word_at].
    rewrite (digit_is_word _ Dc). reflexivity.
Qed.









Lemma no_match_in_empty (prev : option ascii) :
  sre_match ROW_RE prev [] [] [] = None.
Proof.
  destruct (sre_match ROW_RE prev [] [] []) as [r|] eqn:E; [|reflexivity].
  apply match_has_digit in E. discriminate E.
Qed.






(** A match of the pattern spans at least thirteen characters. *)
Lemma row_match_length (prev : option ascii) (s : text)
      (r : list text * text) :
  sre_match ROW_RE prev s [] [] = Some r ->
  (length (snd r) + 13 <= length s)%nat.
Proof.
  unfold ROW_RE. intros H.
  apply at_bol_sound in H. destruct H as [_ H].
  apply repeat_sound in H. destruct H as (w0 & s0 & -> & _ & _ & _ & H).
  rewrite mark_open_eq in H.
  apply repeat_sound in H. destruct H as (g1 & s1 & -> & _ & L1 & _ & H).
  rewrite mark_close_eq in H.
  apply repeat_sound in H. destruct H as (w1 & s2 & -> & _ & M1 & _ & H).
  rewrite mark_open_eq in H.
  apply repeat_sound in H. destruct H as (g2 & s3 & -> & _ & L2 & _ & H).
  rewrite mark_close_eq in H.
  apply repeat_sound in H. destruct H as (w2 & s4 & -> & _ & M2 & _ & H).
  rewrite mark_open_eq in H.
  apply repeat_sound in H. destruct H as (g3 & s5 & -> & _ & L3 & _ & H).
  rewrite mark_close_eq in H.
  apply repeat_sound in H. destruct H as (w3 & s6 & -> & _ & M3 & _ & H).
  rewrite mark_open_eq in H.
  apply repeat_sound in H. destruct H as (m & s7 & -> & _ & _ & _ & H).
  apply repeat_sound in H. destruct H as (d & s8 & -> & _ & Ld & _ & H).
  rewrite mark_close_eq in H.
  apply at_boundary_sound in H. destruct H as [_ H].
  cbn [sre_match] in H. injection H as <-. cbn [snd].
  rewrite !length_app. lia.
Qed.

Lemma findall_from_count (s : text) :
  forall prev skip,
    (13 * length (findall_from ROW_RE prev s skip) <= length s - skip)%nat.
Proof.
  induction s as [|c s IH]; intros prev skip.
  - destruct skip as [|skip]; cbn [findall_from]; [|simpl; lia].
    rewrite no_match_in_empty. simpl. lia.
  - destruct skip as [|skip]; cbn [findall_from].
    + destruct (sre_match ROW_RE prev (c :: s) [] []) as [[gs rest]|] eqn:E.
      * apply row_match_length in E. cbn [snd length] in E.
        specialize (IH (Some c) (pred (length (c :: s) - length rest))).
        cbn [length] in IH |- *. lia.
      * specialize (IH (Some c) 0%nat). cbn [length]. lia.
    + specialize (IH (Some c) skip). cbn [length]. lia.
Qed.








End AcceptFacts.

(** ** More on the normalizer *)

Module NormalizeFacts.

(** The rows kept have keys that are pairwise distinct and were not seen
    before. *)
Lemma drop_duplicates_from_nodup (l : DataFrame) :
  forall seen,
    NoDup (map subset_key (drop_duplicates_from seen l))
    /\ (forall k, In k (map subset_key (drop_duplicates_from seen l)) ->
                  ~ In k seen).
Proof.
  induction l as [|r l IH]; intros seen; cbn [drop_duplicates_from].
  - split; [constructor|intros k []].
  - destruct (existsb (key_eqb (subset_key r)) seen) eqn:E.
    + apply IH.
    + destruct (IH (subset_key r :: seen)) as [N F]. cbn [map]. split.
      * constructor; [|exact N].
        intros I. apply (F _ I). left. reflexivity.
      * intros k [<-|I].
        -- intros I. apply existsb_key_in in I. congruence.
        -- intros J. apply (F _ I). right. exact J.
Qed.

(** A frame whose keys are distinct and unseen is kept as it is. *)
Lemma drop_duplicates_from_fixed (l : DataFrame) :
  forall seen,
    NoDup (map subset_key l) ->
    (forall k, In k (map subset_key l) -> ~ In k seen) ->
    drop_duplicates_from seen l = l.
Proof.
  induction l as [|r l IH]; intros seen N F; [reflexivity|].
  cbn [drop_duplicates_from map] in *.
  destruct (existsb (key_eqb (subset_key r)) seen) eqn:E.
  - apply existsb_key_in in E. exfalso.
    apply (F (subset_key r)); [left; reflexivity|exact E].
  - f_equal. inversion N as [|k ks Nk Nl]; subst. apply IH; [exact Nl|].
    intros k I [<-|J]; [contradiction|].
    apply (F k); [right; exact I|exact J].
Qed.

Lemma drop_duplicates_nodup (df : DataFrame) :
  NoDup (map subset_key (drop_duplicates df)).
Proof. apply drop_duplicates_from_nodup. Qed.

Lemma drop_duplicates_fixed (df : DataFrame) :
  NoDup (map subset_key df) -> drop_duplicates df = df.
Proof.
  intros N. apply drop_duplicates_from_fixed; [exact N|intros k _ []].
Qed.

Lemma normalize_nodup (df : DataFrame) :
  NoDup (map subset_key (normalize df)).
Proof.
  eapply Permutation_NoDup; [|apply drop_duplicates_nodup].
  apply Permutation_map, Permutation_sym, normalize_perm.
Qed.

Lemma forallb_perm (B : Type) (p : B -> bool) (l1 l2 : list B) :
  Permutation l1 l2 -> forallb p l1 = forallb p l2.
Proof.
  induction 1 as [|x l1 l2 _ IH|x y l|l1 l2 l3 _ IH1 _ IH2]; cbn [forallb].
  - reflexivity.
  - rewrite IH. reflexivity.
  - destruct (p x), (p y); reflexivity.
  - congruence.
Qed.

Lemma existsb_perm (B : Type) (p : B -> bool) (l1 l2 : list B) :
  Permutation l1 l2 -> existsb p l1 = existsb p l2.
Proof.
  induction 1 as [|x l1 l2 _ IH|x y l|l1 l2 l3 _ IH1 _ IH2]; cbn [existsb].
  - reflexivity.
  - rewrite IH. reflexivity.
  - destruct (p x), (p y); reflexivity.
  - congruence.
Qed.

Lemma numeric_like_perm (c1 c2 : list text) :
  Permutation c1 c2 -> numeric_like c1 = numeric_like c2.
Proof.
  intros P. unfold numeric_like, sign_conflict.
  assert (V : Permutation (values c1) (values c2))
    by (apply Permutation_map, P).
  rewrite (forallb_perm parses P), (forallb_perm in_64bit V),
    (existsb_perm (fun z => z <? 0) V),
    (existsb_perm (fun z => 2 ^ 63 <=? z) V).
  reflexivity.
Qed.

Lemma column_kind_perm (B : Type) (f : B -> text) (l1 l2 : list B) :
  Permutation l1 l2 -> column_kind (map f l1) = column_kind (map f l2).
Proof.
  intros P. rewrite !column_kind_parses.
  rewrite (numeric_like_perm (Permutation_map f P)). reflexivity.
Qed.

(** Sorting a frame that is sorted already leaves it as it is. *)
Lemma sort_values_sorted_fixed (df : DataFrame) :
  sort_values (sort_values df) = sort_values df.
Proof.
  pose proof (sort_values_perm df) as P.
  pose proof (column_kind_perm NUMERO_GARANZIA P) as KG.
  pose proof (column_kind_perm SUFFISSO P) as KS.
  apply sorted_stable_unique
    with (f := row_key (column_kind (map NUMERO_GARANZIA df))
                       (column_kind (map SUFFISSO df))).
  - apply sort_values_perm.
  - pose proof (sort_values_sorted (sort_values df)) as S.
    unfold row_le in S. rewrite KG, KS in S. exact S.
  - exact (sort_values_sorted df).
  - intros k. pose proof (sort_values_stable (sort_values df) k) as S.
    unfold with_key in S. rewrite KG, KS in S. exact S.
Qed.

Lemma normalize_idempotent (df : DataFrame) :
  normalize (normalize df) = normalize df.
Proof.
  unfold normalize at 1.
  rewrite (drop_duplicates_fixed _ (normalize_nodup df)).
  unfold normalize. apply sort_values_sorted_fixed.
Qed.





End NormalizeFacts.

(** ** Line ends *)

Module NewlineFacts.

Lemma universal_newlines_no_cr (s : text) :
  forallb (fun c => negb (code c =? 13)%N) (universal_newlines s) = true.
Proof.
  induction s as [|c s IH]; [reflexivity|].
  cbn [universal_newlines]. destruct (N.eqb_spec (code c) 13) as [C|C].
  - destruct s as [|d s]; [reflexivity|].
    destruct (N.eqb_spec (code d) 10); [exact IH|].
    cbn [forallb]. rewrite IH. reflexivity.
  - cbn [forallb]. rewrite IH.
    destruct (N.eqb_spec (code c) 13); [contradiction|reflexivity].
Qed.

Lemma universal_newlines_fixed (s : text) :
  forallb (fun c => negb (code c =? 13)%N) s = true ->
  universal_newlines s = s.
Proof.
  induction s as [|c s IH]; [reflexivity|].
  cbn [forallb]. intros H. apply andb_true_iff in H. destruct H as [C H].
  cbn [universal_newlines]. apply negb_true_iff in C. rewrite C.
  f_equal. apply IH, H.
Qed.

Lemma universal_newlines_length (s : text) :
  (length (universal_newlines s) <= length s)%nat.
Proof.
  induction s as [|c s IH]; [simpl; lia|].
  cbn [universal_newlines]. destruct (code c =? 13)%N.
  - destruct s as [|d s]; [simpl; lia|].
    destruct (code d =? 10)%N; cbn [length] in *; lia.
  - cbn [length]. lia.
Qed.

(** The translation works piece by piece, unless the cut falls between
    a carriage return and its line feed. *)
Lemma universal_newlines_app (x y : text) :
  (forall d, hd_error y = Some d -> (code d =? 10)%N = false) ->
  universal_newlines (x ++ y) = universal_newlines x ++ universal_newlines y.
Proof.
  intros H. induction x as [|c x IH]; [reflexivity|].
  cbn [app universal_newlines]. destruct (code c =? 13)%N.
  - destruct x as [|d x].
    + cbn [app]. destruct y as [|d y]; [reflexivity|].
      rewrite (H d eq_refl). reflexivity.
    + cbn [app] in IH |- *. destruct (code d =? 10)%N; rewrite IH; reflexivity.
  - rewrite IH. reflexivity.
Qed.

Lemma universal_newlines_crlf (a b : text) :
  universal_newlines (a ++ CR :: LF :: b)
  = universal_newlines a ++ LF :: universal_newlines b.
Proof.
  rewrite universal_newlines_app; [reflexivity|].
  intros d E. injection E as <-. reflexivity.
Qed.

Lemma universal_newlines_cr (a b : text) :
  hd_error b <> Some LF ->
  universal_newlines (a ++ CR :: b)
  = universal_newlines a ++ LF :: universal_newlines b.
Proof.
  intros H. rewrite universal_newlines_app.
  - f_equal. destruct b as [|d b]; [reflexivity|].
    cbn [universal_newlines]. change (code CR =? 13)%N with true. cbv iota.
    destruct (N.eqb_spec (code d) 10) as [E|E]; [|reflexivity].
    exfalso. apply H. cbn [hd_error]. f_equal.
    apply code_inj. rewrite E. reflexivity.
  - intros d E. injection E as <-. reflexivity.
Qed.

End NewlineFacts.

(** ** More on [eur_fmt] and [build_pdf] *)

Module FormatFacts.

Import PyDecimal DigitFacts.

(** An amount in cents of at most 26 digits is formatted as it is. *)
Lemma eur_fmt_cents (s : bool) (c : Z) :
  0 <= c -> ndigits c <= 26 ->
  eur_fmt (mk s c (-2))
  = Ok (replace "X" "." (replace "." "," (replace "," "X"
          (format_comma_2f (mk s c (-2))))) ++ currency_suffix).
Proof.
  intros C N. unfold eur_fmt.
  rewrite DecimalFacts.quantize_cent_noop by assumption. reflexivity.
Qed.

(** Amounts of 10^26 and more cannot be brought to two places within the
    context's 28 digits. *)
Lemma eur_fmt_too_large (d : t) :
  coeff d <> 0 -> 26 <= adjusted d -> eur_fmt d = Raise InvalidOperation.
Proof.
  intros C A. unfold eur_fmt, quantize, is_zero, cent.
  cbn [exp coeff sign].
  change (negb ((Etiny <=? -2) && (-2 <=? Emax))) with false. cbv iota.
  destruct (Z.eqb_spec (coeff d) 0) as [E|_]; [contradiction|].
  destruct (Emax <? adjusted d); [reflexivity|].
  destruct (Z.ltb_spec prec (adjusted d - -2 + 1)) as [L|L];
    [reflexivity|unfold prec in L; lia].
Qed.

(** The story of a frame: formatting its totals never fails. *)
Lemma story_of_ok (df : DataFrame) :
  exists iva_s ivato_s,
    (t <- totals_of df ;; story_of df t)
    = Ok {| table_data :=
              map TStr (map chars HEADER) ::
              map (fun r => [TStr (NUMERO_GARANZIA r); TStr (SUFFISSO r);
                             TInt (JOB r); TInt (TOTALE_JOB r)]) df;
            totals_block :=
              [("Totale"%string, int_str (column_sum (map TOTALE_JOB df)));
               ("IVA 22%"%string, iva_s);
               ("Totale IVA inclusa"%string, ivato_s)] |}
    /\ eur_fmt (tax_exact (column_sum (map TOTALE_JOB df))) = Ok iva_s
    /\ eur_fmt (gross_exact (column_sum (map TOTALE_JOB df))) = Ok ivato_s.
Proof.
  set (total := column_sum (map TOTALE_JOB df)).
  assert (R : - 2 ^ 63 <= total < 2 ^ 63) by apply astype_int_range.
  pose proof (DecimalFacts.tax_digits R) as Ht.
  pose proof (DecimalFacts.gross_digits R) as Hg.
  assert (E1 := @eur_fmt_cents (total <? 0) (Z.abs total * 22)
                  ltac:(lia) Ht).
  assert (E2 := @eur_fmt_cents (total <? 0) (Z.abs total * 122)
                  ltac:(lia) Hg).
  fold (tax_exact total) in E1. fold (gross_exact total) in E2.
  eexists. eexists. split; [|split; eassumption].
  rewrite totals_of_exact. cbn [bind]. unfold story_of.
  cbn [iva ivato]. fold total. rewrite E1, E2. reflexivity.
Qed.

End FormatFacts.

(** ** More on the driver *)

Lemma only_writes_refl (outs : list string) (w : World) : only_writes outs w w.
Proof.
  split; [reflexivity|]. split; [exists []; symmetry; apply app_nil_r|].
  split; [reflexivity|auto].
Qed.

Lemma only_writes_trans (outs : list string) (w1 w2 w3 : World) :
  only_writes outs w1 w2 -> only_writes outs w2 w3 -> only_writes outs w1 w3.
Proof.
  intros (W1 & (l1 & S1) & K1 & D1) (W2 & (l2 & S2) & K2 & D2).
  split; [congruence|]. split; [|split].
  - exists (l1 ++ l2). rewrite S2, S1, app_assoc. reflexivity.
  - intros p N. rewrite K2, K1 by exact N. reflexivity.
  - intros p N. apply D2, D1, N.
Qed.

Lemma only_writes_mono (outs outs' : list string) (w w' : World) :
  incl outs outs' -> only_writes outs w w' -> only_writes outs' w w'.
Proof.
  intros I (W & S & K & D). split; [exact W|]. split; [exact S|].
  split; [|exact D].
  intros p N. apply K. intros J. apply N, I, J.
Qed.

Lemma only_writes_printed (outs : list string) (w : World) (ls : list string) :
  only_writes outs w (printed w ls).
Proof.
  split; [reflexivity|]. split; [exists ls; reflexivity|].
  split; [reflexivity|auto].
Qed.

Lemma only_writes_written (outs : list string) (w : World) (path : string)
      (content : text) :
  In path outs -> only_writes outs w (written w path content).
Proof.
  intros I. split; [reflexivity|]. split; [|split].
  - exists []. symmetry. apply app_nil_r.
  - intros p N. cbn [written store].
    destruct (String.eqb_spec p path) as [->|_]; [contradiction|reflexivity].
  - intros p N. cbn [written store].
    destruct (String.eqb p path); [discriminate|exact N].
Qed.

Local Open Scope string_scope.

Section DriverFacts.

Variable basename : string -> string.
Variable splitext : string -> string * string.
Variable dirname : string -> string.
Variable abspath : string -> string.
Variable getcwd : string.
Variable join : string -> string -> string.
Variable render : Story -> text.

Let out_of := output_path_for basename splitext dirname abspath getcwd join.
Let build := build_pdf render.
Let process :=
  process_file basename splitext dirname abspath getcwd join render.
Let process_each :=
  process_all basename splitext dirname abspath getcwd join render.
Let main' := main basename splitext dirname abspath getcwd join render.

(** Reading and parsing leave the world as it is, and look at the file
    store only. *)
Lemma parse_txt_pure (path : string) (w : World) (ls : list string) :
  parse_txt path (printed w ls) = (printed w ls, snd (parse_txt path w)).
Proof.
  unfold parse_txt, io_bind, read_text, lift. cbn [printed store].
  destruct (store w path) as [f|]; [|reflexivity].
  destruct (readable f); reflexivity.
Qed.

(** [build_pdf] fails only when the document cannot be written. *)
Lemma build_pdf_outcome (df : DataFrame) (out : string) (w : World) :
  exists st,
    (t <- totals_of df ;; story_of df t) = Ok st
    /\ build df out w =
       if writable w out then (written w out (render st), Ok tt)
       else (w, Raise (OSError (permission_denied out))).
Proof.
  destruct (FormatFacts.story_of_ok df) as (iva_s & ivato_s & E & _).
  eexists. split; [exact E|].
  subst build. unfold build_pdf, io_bind, lift.
  rewrite totals_of_exact in E |- *. cbn [bind] in E. rewrite E.
  unfold write_document, written. reflexivity.
Qed.

Lemma printed_printed (w : World) (l1 l2 : list string) :
  printed (printed w l1) l2 = printed w (l1 ++ l2).
Proof.
  unfold printed. cbn [stdout store writable]. rewrite <- app_assoc.
  reflexivity.
Qed.

(** [process_file], step by step. *)
Lemma process_file_eval (path : string) (w : World) :
  process path w =
  match snd (parse_txt path w) with
  | Raise e => (printed w ["Elaborazione: " ++ path], Raise e)
  | Ok df =>
      match build df (out_of path)
                  (printed w ["Elaborazione: " ++ path;
                              "Righe estratte: " ++
                              string_of_list_ascii
                                (int_str (Z.of_nat (length df)))]) with
      | (w2, Ok _) =>
          (printed w2 ["PDF generato: " ++ out_of path], Ok (out_of path))
      | (w2, Raise e) => (w2, Raise e)
      end
  end.
Proof.
  subst process build out_of. unfold process_file, io_bind, print, ret.
  change (mkWorld (stdout w ++ ["Elaborazione: " ++ path]) (store w)
                  (writable w))
    with (printed w ["Elaborazione: " ++ path]).
  rewrite parse_txt_pure.
  destruct (snd (parse_txt path w)) as [df|e]; [|reflexivity].
  match goal with
  | |- context [build_pdf render df ?o ?w1] =>
      change w1 with
        (printed (printed w ["Elaborazione: " ++ path])
                 ["Righe estratte: " ++
                  string_of_list_ascii (int_str (Z.of_nat (length df)))])
  end.
  rewrite printed_printed. cbn [app].
  match goal with
  | |- context [build_pdf render df ?o ?w1] =>
      destruct (build_pdf render df o w1) as [w2 [[]|e]]; reflexivity
  end.
Qed.

(** The three ways [process_file] can end. *)
Lemma process_file_outcome (path : string) (w : World) :
  (exists e,
      snd (parse_txt path w) = Raise e
      /\ process path w = (printed w ["Elaborazione: " ++ path], Raise e))
  \/ (exists df,
         snd (parse_txt path w) = Ok df
         /\ writable w (out_of path) = false
         /\ process path w =
            (printed w ["Elaborazione: " ++ path;
                        "Righe estratte: " ++
                        string_of_list_ascii (int_str (Z.of_nat (length df)))],
             Raise (OSError (permission_denied (out_of path)))))
  \/ (exists df st,
         snd (parse_txt path w) = Ok df
         /\ writable w (out_of path) = true
         /\ (t <- totals_of df ;; story_of df t) = Ok st
         /\ process path w =
            (written
               (printed w ["Elaborazione: " ++ path;
                           "Righe estratte: " ++
                           string_of_list_ascii
                             (int_str (Z.of_nat (length df)));
                           "PDF generato: " ++ out_of path])
               (out_of path) (render st),
             Ok (out_of path))).
Proof.
  rewrite process_file_eval.
  destruct (snd (parse_txt path w)) as [df|e].
  - right.
    destruct (build_pdf_outcome df (out_of path)
                (printed w ["Elaborazione: " ++ path;
                            "Righe estratte: " ++
                            string_of_list_ascii
                              (int_str (Z.of_nat (length df)))]))
      as (st & E & B).
    rewrite B. cbn [printed writable].
    destruct (writable w (out_of path)) eqn:Wr.
    + right. exists df, st. repeat split; try assumption.
      unfold written, printed. cbn [stdout store writable].
      rewrite <- app_assoc. reflexivity.
    + left. exists df. repeat split; assumption.
  - left. exists e. split; reflexivity.
Qed.

Lemma process_file_only_writes (path : string) (w : World) :
  only_writes [out_of path] w (fst (process path w)).
Proof.
  destruct (process_file_outcome path w)
    as [(e & _ & E)|[(df & _ & _ & E)|(df & st & _ & _ & _ & E)]];
    rewrite E; cbn [fst].
  - apply only_writes_printed.
  - apply only_writes_printed.
  - eapply only_writes_trans; [apply only_writes_printed|].
    apply only_writes_written. left. reflexivity.
Qed.

Lemma process_all_step (f : string) (files created : list string)
      (w : World) :
  process_each (f :: files) created w =
  match process f w with
  | (w1, Ok c) => process_each files (created ++ [c])%list w1
  | (w1, Raise e) => (printed w1 [diagnostic f e], Raise e)
  end.
Proof.
  subst process_each process. cbn [process_all].
  unfold io_bind at 1. unfold try_except.
  destruct (process_file basename splitext dirname abspath getcwd join render
              f w) as [w1 [c|e]]; reflexivity.
Qed.

Lemma process_all_only_writes (files : list string) :
  forall created w,
    only_writes (map out_of files) w (fst (process_each files created w)).
Proof.
  induction files as [|f files IH]; intros created w.
  - apply only_writes_refl.
  - rewrite process_all_step.
    pose proof (process_file_only_writes f w) as P.
    destruct (process f w) as [w1 [c|e]]; cbn [fst] in P.
    + eapply only_writes_trans.
      * eapply only_writes_mono; [|exact P].
        intros p [<-|[]]. left. reflexivity.
      * eapply only_writes_mono; [|apply IH].
        intros p I. right. exact I.
    + cbn [fst]. eapply only_writes_trans.
      * eapply only_writes_mono; [|exact P].
        intros p [<-|[]]. left. reflexivity.
      * apply only_writes_printed.
Qed.

(** The paths collected are the output paths of the files, in order. *)
Lemma process_all_created (files : list string) :
  forall created0 created w w',
    process_each files created0 w = (w', Ok created) ->
    created = (created0 ++ map out_of files)%list.
Proof.
  induction files as [|f files IH]; intros created0 created w w' H.
  - subst process_each. cbn in H. unfold ret in H.
    injection H as _ <-. symmetry. apply app_nil_r.
  - rewrite process_all_step in H.
    destruct (process_file_outcome f w)
      as [(e & _ & E)|[(df & _ & _ & E)|(df & st & _ & _ & _ & E)]];
      rewrite E in H; try discriminate H.
    apply IH in H. rewrite H, <- app_assoc. reflexivity.
Qed.

Lemma print_created_lines (created : list string) :
  forall w,
    print_created created w
    = (printed w (map (fun c => "CREATO: " ++ c) created), Ok tt).
Proof.
  induction created as [|c created IH]; intros w.
  - unfold printed. cbn. rewrite app_nil_r. destruct w; reflexivity.
  - cbn [print_created]. unfold io_bind at 1. unfold print at 1.
    rewrite IH. unfold printed. cbn [stdout store writable map].
    rewrite <- app_assoc. reflexivity.
Qed.

Lemma filter_idempotent (B : Type) (p : B -> bool) (l : list B) :
  filter p (filter p l) = filter p l.
Proof.
  induction l as [|a l IH]; [reflexivity|].
  cbn [filter]. destruct (p a) eqn:E; [|exact IH].
  cbn [filter]. rewrite E, IH. reflexivity.
Qed.

Lemma main_on_files (args : list string) (w : World) :
  main' args w =
  match filter (isfile w) args with
  | [] => (printed w [usage], Ok 0)
  | files =>
      match process_each files [] w with
      | (w1, Ok created) =>
          (printed w1 ("Elaborazione completata." ::
                       map (fun c => "CREATO: " ++ c) created), Ok 0)
      | (w1, Raise e) => (w1, Raise e)
      end
  end.
Proof.
  subst main' process_each. unfold main.
  destruct (filter (isfile w) args) as [|f files] eqn:F; [reflexivity|].
  unfold io_bind at 1.
  destruct (process_all basename splitext dirname abspath getcwd join render
              (f :: files) [] w) as [w1 [created|e]]; [|reflexivity].
  unfold io_bind at 1. unfold print at 1.
  unfold io_bind at 1. rewrite print_created_lines.
  unfold ret, printed. cbn [stdout store writable].
  rewrite <- app_assoc. reflexivity.
Qed.

Lemma main_only_writes (args : list string) (w : World) :
  only_writes (map out_of (filter (isfile w) args)) w (fst (main' args w)).
Proof.
  rewrite main_on_files.
  pose proof (process_all_only_writes (filter (isfile w) args) [] w) as P.
  destruct (filter (isfile w) args) as [|f files].
  - apply only_writes_printed.
  - destruct (process_each (f :: files) [] w) as [w1 [created|e]];
      cbn [fst] in *; [|exact P].
    eapply only_writes_trans; [exact P|apply only_writes_printed].
Qed.

(** X14: when none of the arguments is an existing file (in particular
    when there is no argument), [main] prints the usage hint and returns 0;
    nothing is read or written. *)
Theorem main_without_files_prints_usage (args : list string) (w : World) :
  filter (isfile w) args = [] ->
  main' args w = (printed w [usage], Ok 0).
Proof.
  intros F. rewrite main_on_files, F. reflexivity.
Qed.

(** X15: arguments that are not existing files are dropped before anything
    else happens: [main] behaves on all the arguments as on the existing
    files among them. *)
Theorem main_skips_missing_paths (args : list string) (w : World) :
  main' args w = main' (filter (isfile w) args) w.
Proof.
  rewrite !main_on_files, filter_idempotent. reflexivity.
Qed.

(** X16: when [process_file] raises, no file was written or changed and no
    permission changed; the progress line naming the file was printed
    before the failure. *)
Theorem process_file_failure_writes_nothing
        (path : string) (w : World) (e : exn) :
  snd (process path w) = Raise e ->
  store (fst (process path w)) = store w
  /\ writable (fst (process path w)) = writable w
  /\ exists more,
       stdout (fst (process path w))
       = (stdout w ++ ("Elaborazione: " ++ path)%string :: more)%list.
Proof.
  intros H.
  destruct (process_file_outcome path w)
    as [(e' & _ & E)|[(df & _ & _ & E)|(df & st & _ & _ & _ & E)]];
    rewrite E in H |- *; cbn [fst snd] in H |- *.
  - repeat split. exists []. reflexivity.
  - repeat split. eexists. reflexivity.
  - discriminate H.
Qed.

(** X17: [process_file] succeeds exactly when the input file is read and
    parsed and the output path is writable: computing and formatting the
    totals never fails. *)
Theorem process_file_succeeds_iff (path : string) (w : World) :
  (exists out, snd (process path w) = Ok out)
  <-> ((exists df, snd (parse_txt path w) = Ok df)
       /\ writable w (out_of path) = true).
Proof.
  destruct (process_file_outcome path w)
    as [(e' & P & E)|[(df & P & Wr & E)|(df & st & P & Wr & _ & E)]];
    rewrite E, P; cbn [snd]; split.
  - intros [out H]. discriminate H.
  - intros [[df H] _]. discriminate H.
  - intros [out H]. discriminate H.
  - intros [_ H]. congruence.
  - intros _. split; [exists df; reflexivity|exact Wr].
  - intros _. exists (out_of path). reflexivity.
Qed.

(** X18: when [process_file] succeeds it returns the output path derived
    from the input path, has printed three lines (the file, the number of
    rows after normalization, the output path) and has written the rendered
    document at the output path, and nothing else. *)
Theorem process_file_success (path : string) (w : World) (out : string) :
  snd (process path w) = Ok out ->
  out = out_of path
  /\ exists df st,
       snd (parse_txt path w) = Ok df
       /\ (t <- totals_of df ;; story_of df t) = Ok st
       /\ fst (process path w)
          = written
              (printed w ["Elaborazione: " ++ path;
                          "Righe estratte: " ++
                          string_of_list_ascii
                            (int_str (Z.of_nat (length df)));
                          "PDF generato: " ++ out])
              out (render st).
Proof.
  intros H.
  destruct (process_file_outcome path w)
    as [(e' & _ & E)|[(df & _ & _ & E)|(df & st & P & _ & S & E)]];
    rewrite E in H |- *; cbn [fst snd] in H |- *; try discriminate H.
  injection H as <-. split; [reflexivity|].
  exists df, st. repeat split; assumption.
Qed.

(** X19: when every existing file is processed, [main] prints the
    completion line and one "CREATO:" line per output path, in the order of
    the arguments, and returns 0; the paths are the output paths of the
    files. *)
Theorem main_success_report
        (args created : list string) (w : World) :
  filter (isfile w) args <> [] ->
  snd (process_each (filter (isfile w) args) [] w) = Ok created ->
  main' args w
  = (printed (fst (process_each (filter (isfile w) args) [] w))
             ("Elaborazione completata." ::
              map (fun c => "CREATO: " ++ c) created), Ok 0)
  /\ created = map out_of (filter (isfile w) args).
Proof.
  intros N H. rewrite main_on_files.
  destruct (filter (isfile w) args) as [|f files] eqn:F; [congruence|].
  destruct (process_each (f :: files) [] w) as [w1 [c|e]] eqn:P;
    cbn [fst snd] in H |- *; [|discriminate H].
  injection H as <-. split; [reflexivity|].
  apply process_all_created in P. exact P.
Qed.

(** X20: whatever the arguments and however [main] ends, it only prints
    and writes output documents: every path that is not the output path of
    an existing argument keeps its content, no file disappears, and no
    permission changes. *)
Theorem main_only_writes_outputs (args : list string) (w : World) :
  only_writes (map out_of (filter (isfile w) args)) w (fst (main' args w)).
Proof. apply main_only_writes. Qed.

End DriverFacts.

Local Close Scope string_scope.

(** ** The text of an amount *)

Module AmountFacts.

Import PyDecimal DigitFacts.

Lemma digits_fuel_acc (fuel : nat) :
  forall c acc, digits_fuel fuel c acc = digits_fuel fuel c [] ++ acc.
Proof.
  induction fuel as [|fuel IH]; intros c acc; cbn [digits_fuel].
  - reflexivity.
  - destruct (c <? 10); [reflexivity|].
    rewrite (IH (c / 10) (_ :: acc)), (IH (c / 10) [_]), <- app_assoc.
    reflexivity.
Qed.

Lemma pow10_succ (k : nat) : 10 ^ Z.of_nat (S k) = 10 * 10 ^ Z.of_nat k.
Proof. rewrite Nat2Z.inj_succ, Z.pow_succ_r by lia. reflexivity. Qed.

(** With enough fuel the digits do not depend on the fuel. *)
Lemma digits_fuel_enough (f1 : nat) :
  forall f2 c,
    0 <= c < 10 ^ Z.of_nat (S f1) -> c < 10 ^ Z.of_nat (S f2) ->
    digits_fuel f1 c [] = digits_fuel f2 c [].
Proof.
  induction f1 as [|f1 IH]; intros f2 c H1 H2.
  - change (10 ^ Z.of_nat 1) with 10 in H1.
    destruct f2 as [|f2]; cbn [digits_fuel]; [reflexivity|].
    destruct (Z.ltb_spec c 10); [reflexivity|lia].
  - cbn [digits_fuel]. destruct (Z.ltb_spec c 10) as [L|L].
    + destruct f2 as [|f2]; cbn [digits_fuel]; [reflexivity|].
      destruct (Z.ltb_spec c 10); [reflexivity|lia].
    + destruct f2 as [|f2].
      * change (10 ^ Z.of_nat 1) with 10 in H2. lia.
      * cbn [digits_fuel]. destruct (Z.ltb_spec c 10); [lia|].
        rewrite (digits_fuel_acc f1), (digits_fuel_acc f2). f_equal.
        rewrite pow10_succ in H1, H2.
        apply IH; [split; [apply Z.div_pos; lia|]|];
          apply Z.div_lt_upper_bound; lia.
Qed.

Lemma log2_fuel (c : Z) :
  0 <= c -> c < 10 ^ Z.of_nat (S (Z.to_nat (Z.log2 c))).
Proof.
  intros C. pose proof (Z.log2_nonneg c) as L.
  rewrite Nat2Z.inj_succ, Z2Nat.id by exact L.
  destruct (Z.eq_dec c 0) as [->|N]; [reflexivity|].
  apply Z.lt_le_trans with (2 ^ Z.succ (Z.log2 c)).
  - apply Z.log2_spec. lia.
  - apply Z.pow_le_mono_l. lia.
Qed.

Lemma digits_small (c : Z) : 0 <= c < 10 -> digits c = [digit_char c].
Proof.
  intros C. unfold digits, digit_char.
  destruct (Z.to_nat (Z.log2 c)); cbn [digits_fuel];
    [|destruct (Z.ltb_spec c 10); [|lia]];
    rewrite Z.mod_small by lia; reflexivity.
Qed.

Lemma digits_step (c : Z) :
  10 <= c -> digits c = digits (c / 10) ++ [digit_char (c mod 10)].
Proof.
  intros C. unfold digits at 1.
  pose proof (@log2_fuel c ltac:(lia)) as F.
  assert (L : 3 <= Z.log2 c).
  { change 3 with (Z.log2 8). apply Z.log2_le_mono. lia. }
  destruct (Z.to_nat (Z.log2 c)) as [|f] eqn:E; [lia|].
  cbn [digits_fuel]. destruct (Z.ltb_spec c 10); [lia|].
  rewrite digits_fuel_acc. fold (digit_char (c mod 10)). f_equal.
  unfold digits. rewrite pow10_succ in F.
  assert (Q : 0 <= c / 10) by (apply Z.div_pos; lia).
  apply digits_fuel_enough.
  - split; [exact Q|]. apply Z.div_lt_upper_bound; lia.
  - apply log2_fuel, Q.
Qed.

(** The digits of an amount in cents: those of the units, then two. *)
Lemma digits_cents (c : Z) :
  100 <= c ->
  digits c = digits (c / 100)
             ++ [digit_char (c / 10 mod 10); digit_char (c mod 10)].
Proof.
  intros C. rewrite digits_step by lia.
  assert (Q : 10 <= c / 10) by (apply Z.div_le_lower_bound; lia).
  rewrite (digits_step Q), Z.div_div by lia.
  rewrite <- app_assoc. reflexivity.
Qed.

(** The digits of thousands: those of the thousands, then three. *)
Lemma digits_thousands (a b : Z) :
  1 <= a -> 0 <= b < 1000 ->
  digits (1000 * a + b)
  = digits a ++ [digit_char (b / 100); digit_char (b / 10 mod 10);
                 digit_char (b mod 10)].
Proof.
  intros A B. set (u := 1000 * a + b).
  assert (U : 100 <= u) by (subst u; lia).
  rewrite (digits_cents U).
  assert (E1 : u / 100 = 10 * a + b / 100).
  { subst u. replace (1000 * a + b) with (b + (10 * a) * 100) by lia.
    rewrite Z.div_add by lia. lia. }
  assert (Q : 0 <= b / 100 < 10).
  { split; [apply Z.div_pos; lia|apply Z.div_lt_upper_bound; lia]. }
  rewrite E1, digits_step by lia.
  replace ((10 * a + b / 100) / 10) with a
    by (replace (10 * a + b / 100) with (b / 100 + a * 10) by lia;
        rewrite Z.div_add, Z.div_small by lia; lia).
  replace ((10 * a + b / 100) mod 10) with (b / 100)
    by (replace (10 * a + b / 100) with (b / 100 + a * 10) by lia;
        rewrite Z.mod_add, Z.mod_small by lia; reflexivity).
  replace (u / 10 mod 10) with (b / 10 mod 10).
  2:{ subst u. replace (1000 * a + b) with (b + (100 * a) * 10) by lia.
      rewrite Z.div_add by lia.
      replace (b / 10 + 100 * a) with (b / 10 + (10 * a) * 10) by lia.
      rewrite Z.mod_add by lia. reflexivity. }
  replace (u mod 10) with (b mod 10).
  2:{ subst u. replace (1000 * a + b) with (b + (100 * a) * 10) by lia.
      rewrite Z.mod_add by lia. reflexivity. }
  rewrite <- app_assoc. reflexivity.
Qed.

Lemma digit_char_is_digit (k : Z) :
  0 <= k <= 9 -> is_digit (digit_char k) = true.
Proof.
  intros K.
  assert (H : k = 0 \/ k = 1 \/ k = 2 \/ k = 3 \/ k = 4 \/ k = 5 \/ k = 6
              \/ k = 7 \/ k = 8 \/ k = 9) by lia.
  repeat (destruct H as [->|H]; [reflexivity|]). subst k. reflexivity.
Qed.

Lemma digits_fuel_digits (fuel : nat) :
  forall c acc,
    forallb is_digit acc = true ->
    forallb is_digit (digits_fuel fuel c acc) = true.
Proof.
  assert (D : forall c, is_digit (ascii_of_N (Z.to_N (48 + c mod 10))) = true).
  { intros c. apply digit_char_is_digit.
    pose proof (Z.mod_pos_bound c 10). lia. }
  induction fuel as [|fuel IH]; intros c acc A; cbn [digits_fuel].
  - cbn [forallb]. rewrite D, A. reflexivity.
  - destruct (c <? 10).
    + cbn [forallb]. rewrite D, A. reflexivity.
    + apply IH. cbn [forallb]. rewrite D, A. reflexivity.
Qed.

Lemma digits_are_digits (c : Z) : forallb is_digit (digits c) = true.
Proof. apply digits_fuel_digits. reflexivity. Qed.

(** Grouping in threes from the right. *)
Lemma group_reversed_three (r : text) :
  r <> [] -> group_reversed r 3 = ","%char :: group_reversed r 0.
Proof. destruct r as [|d r]; [congruence|reflexivity]. Qed.

Lemma insert_thousands_sep_small (ds : text) :
  (length ds <= 3)%nat -> insert_thousands_sep ds = ds.
Proof.
  destruct ds as [|a [|b [|c [|d ds]]]]; intros L;
    try reflexivity. simpl in L. lia.
Qed.

Lemma insert_thousands_sep_step (a : text) (x y z : ascii) :
  a <> [] ->
  insert_thousands_sep (a ++ [x; y; z])
  = insert_thousands_sep a ++ ","%char :: [x; y; z].
Proof.
  intros N. unfold insert_thousands_sep.
  rewrite rev_app_distr. cbn [rev app group_reversed].
  rewrite group_reversed_three.
  - cbn [rev]. rewrite <- !app_assoc. reflexivity.
  - intros E. apply N. rewrite <- (rev_involutive a), E. reflexivity.
Qed.

Lemma group_reversed_chars (r : text) :
  forall n,
    forallb is_digit r = true ->
    forallb (fun c => is_digit c || Ascii.eqb c ",") (group_reversed r n) = true.
Proof.
  induction r as [|d r IH]; intros n F; [reflexivity|].
  cbn [forallb] in F. apply andb_true_iff in F. destruct F as [D F].
  cbn [group_reversed].
  destruct n as [|[|[|[|n]]]]; cbn [forallb]; rewrite D, IH by exact F;
    reflexivity.
Qed.

Lemma forallb_rev (B : Type) (p : B -> bool) (l : list B) :
  forallb p (rev l) = forallb p l.
Proof.
  induction l as [|a l IH]; [reflexivity|].
  cbn [rev forallb]. rewrite forallb_app, IH. cbn [forallb].
  destruct (p a), (forallb p l); reflexivity.
Qed.

Lemma insert_thousands_sep_chars (ds : text) :
  forallb is_digit ds = true ->
  forallb (fun c => is_digit c || Ascii.eqb c ",") (insert_thousands_sep ds)
  = true.
Proof.
  intros F. unfold insert_thousands_sep.
  rewrite forallb_rev. apply group_reversed_chars.
  rewrite forallb_rev. exact F.
Qed.

(** The three replacements of [eur_fmt], one after the other. *)
Lemma swap_digit_or_comma (c : ascii) :
  is_digit c || Ascii.eqb c "," = true ->
  (if Ascii.eqb (if Ascii.eqb (if Ascii.eqb c "," then "X" else c) "."
                 then "," else (if Ascii.eqb c "," then "X" else c)) "X"
   then "." else (if Ascii.eqb (if Ascii.eqb c "," then "X" else c) "."
                  then "," else (if Ascii.eqb c "," then "X" else c)))%char
  = (if Ascii.eqb c "," then "." else c)%char.
Proof.
  destruct c as [[] [] [] [] [] [] [] []]; intros H;
    solve [reflexivity | discriminate H].
Qed.

Lemma swap_digit (c : ascii) :
  is_digit c = true -> (if Ascii.eqb c "," then "." else c)%char = c.
Proof.
  destruct c as [[] [] [] [] [] [] [] []]; intros H;
    solve [reflexivity | discriminate H].
Qed.

Lemma swap_grouped (s : text) :
  forallb (fun c => is_digit c || Ascii.eqb c ",") s = true ->
  replace "X" "." (replace "." "," (replace "," "X" s)) = replace "," "." s.
Proof.
  intros F. unfold replace. rewrite !map_map.
  apply map_ext_in. intros c I.
  rewrite forallb_forall in F. apply swap_digit_or_comma, F, I.
Qed.

Lemma swap_digits (s : text) :
  forallb is_digit s = true ->
  replace "X" "." (replace "." "," (replace "," "X" s)) = s.
Proof.
  intros F. rewrite swap_grouped.
  - unfold replace. rewrite <- (map_id s) at 2.
    apply map_ext_in. intros c I.
    rewrite forallb_forall in F. apply swap_digit, F, I.
  - rewrite forallb_forall in F |- *. intros c I. rewrite (F c I). reflexivity.
Qed.

Lemma swap_app (a b : text) :
  replace "X" "." (replace "." "," (replace "," "X" (a ++ b)))
  = replace "X" "." (replace "." "," (replace "," "X" a))
    ++ replace "X" "." (replace "." "," (replace "," "X" b)).
Proof. unfold replace. rewrite !map_app. reflexivity. Qed.

Lemma rescale_same (s : bool) (c : Z) (m : rounding) :
  0 <= c -> rescale (mk s c (-2)) (-2) m = mk s c (-2).
Proof.
  intros C. unfold rescale, is_zero. cbn [coeff exp sign].
  destruct (Z.eqb_spec c 0) as [->|N]; [reflexivity|].
  change (-2 <=? -2) with true. cbv iota.
  change (10 ^ (-2 - -2)) with 1. rewrite Z.mul_1_r. reflexivity.
Qed.

(** [f"{q:,.2f}"] on an amount in cents. *)
Lemma format_cents (s : bool) (c : Z) :
  0 <= c ->
  format_comma_2f (mk s c (-2))
  = (if s then chars "-" else [])
    ++ insert_thousands_sep (digits (c / 100))
    ++ chars "."
    ++ [digit_char (c / 10 mod 10); digit_char (c mod 10)].
Proof.
  intros C. unfold format_comma_2f. rewrite rescale_same by exact C.
  cbn [coeff sign]. f_equal.
  destruct (Z.ltb_spec c 10) as [L1|L1].
  - rewrite digits_small by lia. cbn [length].
    rewrite Z.div_small, (Z.div_small c 10), (Z.mod_small c 10) by lia.
    reflexivity.
  - destruct (Z.ltb_spec c 100) as [L2|L2].
    + rewrite digits_step by lia.
      assert (Q : 0 <= c / 10 < 10).
      { split; [apply Z.div_pos; lia|apply Z.div_lt_upper_bound; lia]. }
      rewrite (digits_small Q). cbn [app length].
      rewrite (Z.div_small c 100), (Z.mod_small (c / 10) 10) by lia.
      reflexivity.
    + rewrite digits_cents by lia.
      set (D := digits (c / 100)).
      assert (P : (1 <= length D)%nat).
      { pose proof (ndigits_pos (c / 100)) as X. unfold ndigits in X.
        fold D in X. lia. }
      rewrite length_app. cbn [length].
      replace (Z.of_nat (length D + 2) - 2) with (Z.of_nat (length D)) by lia.
      destruct (Z.ltb_spec (Z.of_nat (length D)) 0); [lia|].
      rewrite Nat2Z.id, firstn_app, Nat.sub_diag, firstn_all,
        skipn_app, Nat.sub_diag, skipn_all.
      cbn [firstn skipn app]. rewrite app_nil_r.
      destruct D; [simpl in P; lia|reflexivity].
Qed.

Lemma eur_fmt_amount (s : bool) (c : Z) :
  0 <= c -> ndigits c <= 26 ->
  eur_fmt (mk s c (-2))
  = Ok ((if s then chars "-" else [])
        ++ units_text (c / 100)
        ++ chars ","
        ++ [digit_char (c / 10 mod 10); digit_char (c mod 10)]
        ++ currency_suffix).
Proof.
  intros C N. rewrite FormatFacts.eur_fmt_cents by assumption.
  rewrite format_cents by exact C. f_equal.
  rewrite !swap_app, <- !app_assoc. f_equal.
  - destruct s; reflexivity.
  - f_equal.
    + apply swap_grouped, insert_thousands_sep_chars, digits_are_digits.
    + f_equal. rewrite swap_digits; [reflexivity|].
      assert (0 <= c / 10 mod 10 <= 9)
        by (pose proof (Z.mod_pos_bound (c / 10) 10); lia).
      assert (0 <= c mod 10 <= 9)
        by (pose proof (Z.mod_pos_bound c 10); lia).
      cbn [forallb]. rewrite !digit_char_is_digit by assumption. reflexivity.
Qed.

Lemma units_text_small (u : Z) : 0 <= u < 1000 -> units_text u = digits u.
Proof.
  intros U. unfold units_text.
  assert (L : (length (digits u) <= 3)%nat).
  { pose proof (@ndigits_le u 2 ltac:(change (10 ^ Z.of_nat 3) with 1000; lia))
      as X. unfold ndigits in X. lia. }
  rewrite insert_thousands_sep_small by exact L.
  unfold replace. rewrite <- (map_id (digits u)) at 2.
  apply map_ext_in. intros c I.
  pose proof (digits_are_digits u) as F. rewrite forallb_forall in F.
  apply swap_digit, F, I.
Qed.

Lemma units_text_thousands (a b : Z) :
  1 <= a -> 0 <= b < 1000 ->
  units_text (1000 * a + b)
  = units_text a ++ chars "."
    ++ [digit_char (b / 100); digit_char (b / 10 mod 10);
        digit_char (b mod 10)].
Proof.
  intros A B. unfold units_text.
  rewrite digits_thousands by assumption.
  rewrite insert_thousands_sep_step.
  - unfold replace. rewrite map_app. f_equal. cbn [map app chars
      list_ascii_of_string].
    assert (Q1 : 0 <= b / 100 <= 9).
    { split; [apply Z.div_pos; lia|].
      assert (b / 100 < 10) by (apply Z.div_lt_upper_bound; lia). lia. }
    assert (Q2 : 0 <= b / 10 mod 10 <= 9)
      by (pose proof (Z.mod_pos_bound (b / 10) 10); lia).
    assert (Q3 : 0 <= b mod 10 <= 9)
      by (pose proof (Z.mod_pos_bound b 10); lia).
    rewrite (@swap_digit _ (@digit_char_is_digit _ Q1)),
      (@swap_digit _ (@digit_char_is_digit _ Q2)),
      (@swap_digit _ (@digit_char_is_digit _ Q3)).
    reflexivity.
  - pose proof (ndigits_pos a) as P. unfold ndigits in P.
    destruct (digits a); [simpl in P; lia|discriminate].
Qed.

End AmountFacts.

(** * Further properties *)

(** ** The pattern and the scan *)

(** X1: the pattern takes every record laid out as it describes.  At a line
    start, optional white space, seven digits, and three digit runs each
    after white space, the last with an optional minus sign, followed by the
    end of the text or a character that is not a word character, match; the
    groups are the four fields and the match ends right after the last
    digit. *)
Theorem record_is_matched (prev : option ascii)
        (w0 g w1 s w2 j w3 m d rest : text) :
  Sre.at_bol prev = true ->
  forallb is_space w0 = true ->
  length g = 7%nat -> forallb is_digit g = true ->
  spaces_only w1 = true -> digits_only s = true ->
  spaces_only w2 = true -> digits_only j = true ->
  spaces_only w3 = true ->
  forallb is_minus m = true -> (length m <= 1)%nat ->
  digits_only d = true ->
  Sre.word_at (hd_error rest) = false ->
  Sre.sre_match ROW_RE prev
                (w0 ++ g ++ w1 ++ s ++ w2 ++ j ++ w3 ++ m ++ d ++ rest) [] []
  = Some ([g; s; j; m ++ d], rest).
Proof. apply AcceptFacts.row_match_complete. Qed.

Lemma record_is_matched_witness :
  Sre.sre_match ROW_RE (Some LF)
                (chars "  " ++ chars "0000123" ++ chars " " ++ chars "001"
                 ++ [ascii_of_N 9] ++ chars "1" ++ chars "  " ++ chars "-"
                 ++ chars "50" ++ LF :: chars "next") [] []
  = Some ([chars "0000123"; chars "001"; chars "1"; chars "-" ++ chars "50"],
          LF :: chars "next").
Proof.
  apply record_is_matched; reflexivity.
Defined.





(** X4: every record takes at least thirteen characters of the text, and
    the matches do not overlap: a text of [n] characters yields at most
    [n / 13] rows. *)
Theorem records_take_thirteen_characters (t : text) (df : DataFrame) :
  extract t = Ok df -> (13 * length df <= length t)%nat.
Proof.
  intros E.
  destruct (RowFacts.extract_cases t) as [[_ R]|(df' & _ & E' & L & _)];
    [congruence|].
  assert (df' = df) by congruence. subst df'. rewrite L.
  pose proof (AcceptFacts.findall_from_count t None 0) as C.
  unfold Sre.findall. lia.
Qed.

Lemma records_take_thirteen_characters_witness :
  (13 * length [row "0000123" "001" 1 100; row "0000123" "001" 1 999;
                row "0000123" "002" 1 50] <= length scenario_text)%nat.
Proof.
  apply records_take_thirteen_characters. vm_compute. reflexivity.
Defined.

(** ** The normalizer *)

(** X5: after [drop_duplicates], and so after normalization, no two rows
    share the key (guarantee number, suffix, job); dropping duplicates a
    second time changes nothing. *)
Theorem normalized_keys_are_distinct (df : DataFrame) :
  NoDup (map subset_key (drop_duplicates df))
  /\ NoDup (map subset_key (normalize df))
  /\ drop_duplicates (drop_duplicates df) = drop_duplicates df.
Proof.
  split; [apply NormalizeFacts.drop_duplicates_nodup|].
  split; [apply NormalizeFacts.normalize_nodup|].
  apply NormalizeFacts.drop_duplicates_fixed,
    NormalizeFacts.drop_duplicates_nodup.
Qed.

(** X6: normalization is idempotent: a normalized frame has no duplicate
    left and is in order, so normalizing it again returns it unchanged. *)
Theorem normalize_is_idempotent (df : DataFrame) :
  normalize (normalize df) = normalize df.
Proof. apply NormalizeFacts.normalize_idempotent. Qed.



(** ** The totals *)

(** X8: the totals do not depend on the order of the rows; in particular
    sorting a frame leaves its totals as they are. *)
Theorem totals_ignore_row_order (df df' : DataFrame) :
  Permutation df df' ->
  totals_of df = totals_of df'
  /\ totals_of (sort_values df) = totals_of df'.
Proof.
  intros P. split; [apply TotalsFacts.totals_of_perm, P|].
  apply TotalsFacts.totals_of_perm.
  eapply Permutation_trans; [apply sort_values_perm|exact P].
Qed.

Lemma totals_ignore_row_order_witness :
  totals_of [row "0000123" "002" 1 50; row "0000123" "001" 1 100]
  = totals_of [row "0000123" "001" 1 100; row "0000123" "002" 1 50]
  /\ totals_of (sort_values [row "0000123" "002" 1 50;
                             row "0000123" "001" 1 100])
     = totals_of [row "0000123" "001" 1 100; row "0000123" "002" 1 50].
Proof.
  apply totals_ignore_row_order. apply perm_swap.
Defined.

(** X9: the total is the sum of the column taken in 64 bits: for every
    column it is the sum of the entries wrapped to a signed 64-bit integer,
    so it is the exact sum exactly when that sum fits the signed 64-bit
    range; a sum of 2^63 gives -2^63. *)
Theorem total_is_wrapped_sum (c : list Z) :
  column_sum c = astype_int (fold_right Z.add 0 c)
  /\ (column_sum c = fold_right Z.add 0 c
      <-> - 2 ^ 63 <= fold_right Z.add 0 c < 2 ^ 63)
  /\ column_sum [2 ^ 63 - 1; 1] = - 2 ^ 63.
Proof.
  split; [apply TotalsFacts.column_sum_wraps|]. split; [|reflexivity].
  rewrite TotalsFacts.column_sum_wraps. split.
  - intros E. rewrite <- E. apply astype_int_range.
  - apply astype_int_id.
Qed.

(** ** [build_pdf] and [eur_fmt] *)

(** X10: [build_pdf] fails only when the document cannot be written.  For
    every frame the totals are computed and formatted without error; then
    either the path is writable and the document is written there, leaving
    the console and the other files as they were, or it is not and an
    OSError is raised with nothing changed. *)
Theorem build_pdf_fails_only_on_write
        (render : Story -> text) (df : DataFrame) (out : string) (w : World) :
  exists st,
    (t <- totals_of df ;; story_of df t) = Ok st
    /\ if writable w out
       then build_pdf render df out w = (written w out (render st), Ok tt)
       else fst (build_pdf render df out w) = w
            /\ exists msg,
                 snd (build_pdf render df out w) = Raise (OSError msg).
Proof.
  destruct (build_pdf_outcome render df out w) as (st & E & B).
  exists st. split; [exact E|].
  rewrite B. destruct (writable w out); [reflexivity|].
  split; [reflexivity|]. eexists. reflexivity.
Qed.

(** X11: [eur_fmt] raises InvalidOperation on every non-zero amount of
    10^26 or more in absolute value: two decimal places would need more than
    the 28 digits of the context. *)
Theorem eur_fmt_rejects_large_amounts (d : PyDecimal.t) :
  PyDecimal.coeff d <> 0 -> 26 <= PyDecimal.adjusted d ->
  eur_fmt d = Raise InvalidOperation.
Proof. apply FormatFacts.eur_fmt_too_large. Qed.

Lemma eur_fmt_rejects_large_amounts_witness :
  eur_fmt (PyDecimal.of_int (10 ^ 26)) = Raise InvalidOperation.
Proof.
  apply eur_fmt_rejects_large_amounts; vm_compute; discriminate.
Defined.

(** X12: the text of an amount of [c] cents (at most 26 digits): a minus
    sign if negative, the whole units [c / 100] grouped with ".", a comma,
    the two digits of the cents, and the suffix literal. *)
Theorem eur_fmt_amount_text (s : bool) (c : Z) :
  0 <= c -> PyDecimal.ndigits c <= 26 ->
  eur_fmt (PyDecimal.mk s c (-2))
  = Ok ((if s then chars "-" else [])
        ++ units_text (c / 100)
        ++ chars ","
        ++ [digit_char (c / 10 mod 10); digit_char (c mod 10)]
        ++ currency_suffix).
Proof. apply AmountFacts.eur_fmt_amount. Qed.

Lemma eur_fmt_amount_text_witness :
  eur_fmt (PyDecimal.mk true 123456789 (-2))
  = Ok (chars "-" ++ units_text (123456789 / 100) ++ chars ","
        ++ [digit_char (123456789 / 10 mod 10); digit_char (123456789 mod 10)]
        ++ currency_suffix).
Proof.
  apply (@eur_fmt_amount_text true 123456789); vm_compute; discriminate.
Defined.

(** X13: the whole units are grouped in threes from the right: below 1000
    they are the plain digits; from 1000 on, the text of the thousands, a
    ".", and the three digits of the rest. *)
Theorem units_are_grouped_in_threes (a b : Z) :
  1 <= a -> 0 <= b < 1000 ->
  units_text b = PyDecimal.digits b
  /\ units_text (1000 * a + b)
     = units_text a ++ chars "."
       ++ [digit_char (b / 100); digit_char (b / 10 mod 10);
           digit_char (b mod 10)].
Proof.
  intros A B. split.
  - apply AmountFacts.units_text_small, B.
  - apply AmountFacts.units_text_thousands; assumption.
Qed.

Lemma units_are_grouped_in_threes_witness :
  units_text 5 = PyDecimal.digits 5
  /\ units_text (1000 * 1234 + 5)
     = units_text 1234 ++ chars "."
       ++ [digit_char (5 / 100); digit_char (5 / 10 mod 10);
           digit_char (5 mod 10)].
Proof.
  apply units_are_grouped_in_threes; lia.
Defined.

(** ** Reading the file *)

(** X21: the file is read with line ends translated: a carriage return
    followed by a line feed arrives as one line feed, a carriage return
    alone arrives as a line feed, and a text without carriage returns is
    read as it is; so the text handed to the scan holds no carriage
    return. *)
Theorem universal_newlines_translates_line_ends :
  (forall a b : text,
     universal_newlines (a ++ CR :: LF :: b)
     = universal_newlines a ++ LF :: universal_newlines b)
  /\ (forall a b : text,
        hd_error b <> Some LF ->
        universal_newlines (a ++ CR :: b)
        = universal_newlines a ++ LF :: universal_newlines b)
  /\ (forall s : text,
        forallb (fun c => negb (code c =? 13)%N) s = true ->
        universal_newlines s = s)
  /\ (forall s : text,
        forallb (fun c => negb (code c =? 13)%N) (universal_newlines s)
        = true).
Proof.
  split; [apply NewlineFacts.universal_newlines_crlf|].
  split; [apply NewlineFacts.universal_newlines_cr|].
  split; [apply NewlineFacts.universal_newlines_fixed|].
  apply NewlineFacts.universal_newlines_no_cr.
Qed.

(** ** The driver on a small batch *)

Lemma main_without_files_prints_usage_witness :
  demo_main ["missing.txt"%string] demo_world
  = (printed demo_world [usage], Ok 0).
Proof.
  unfold demo_main. apply main_without_files_prints_usage. reflexivity.
Defined.

Lemma process_file_failure_writes_nothing_witness :
  store (fst (demo_process_file "bad.txt" demo_world)) = store demo_world
  /\ writable (fst (demo_process_file "bad.txt" demo_world))
     = writable demo_world
  /\ exists more,
       stdout (fst (demo_process_file "bad.txt" demo_world))
       = stdout demo_world ++ ("Elaborazione: " ++ "bad.txt")%string :: more.
Proof.
  unfold demo_process_file.
  apply process_file_failure_writes_nothing
    with (e := ValueError no_rows_msg).
  vm_compute. reflexivity.
Defined.

Lemma process_file_success_witness :
  "out/ok.txt_Riepilogo_Garanzie.pdf"%string
  = output_path_for (fun p => p) (fun p => (p, ""%string))
                    (fun _ => "out"%string) (fun p => p) "."%string
                    (fun d b => (d ++ "/" ++ b)%string) "ok.txt"
  /\ exists df st,
       snd (parse_txt "ok.txt" demo_world) = Ok df
       /\ (t <- totals_of df ;; story_of df t) = Ok st
       /\ fst (demo_process_file "ok.txt" demo_world)
          = written
              (printed demo_world
                 [("Elaborazione: " ++ "ok.txt")%string;
                  ("Righe estratte: " ++
                   string_of_list_ascii
                     (int_str (Z.of_nat (length df))))%string;
                  ("PDF generato: " ++
                   "out/ok.txt_Riepilogo_Garanzie.pdf")%string])
              "out/ok.txt_Riepilogo_Garanzie.pdf" [].
Proof.
  unfold demo_process_file.
  apply (@process_file_success (fun p => p) (fun p => (p, ""%string))
           (fun _ => "out"%string) (fun p => p) "."%string
           (fun d b => (d ++ "/" ++ b)%string) (fun _ => [])
           "ok.txt"%string demo_world).
  vm_compute. reflexivity.
Defined.

Lemma main_success_report_witness :
  demo_main ["ok.txt"; "missing.txt"; "later.txt"]%string demo_world
  = (printed (fst (demo_process_all
                     (filter (isfile demo_world)
                             ["ok.txt"; "missing.txt"; "later.txt"]%string)
                     [] demo_world))
             ("Elaborazione completata."%string ::
              map (fun c => ("CREATO: " ++ c)%string)
                  ["out/ok.txt_Riepilogo_Garanzie.pdf"%string;
                   "out/later.txt_Riepilogo_Garanzie.pdf"%string]), Ok 0)
  /\ ["out/ok.txt_Riepilogo_Garanzie.pdf"%string;
      "out/later.txt_Riepilogo_Garanzie.pdf"%string]
     = map (output_path_for (fun p => p) (fun p => (p, ""%string))
                            (fun _ => "out"%string) (fun p => p) "."%string
                            (fun d b => (d ++ "/" ++ b)%string))
           (filter (isfile demo_world)
                   ["ok.txt"; "missing.txt"; "later.txt"]%string).
Proof.
  unfold demo_main, demo_process_all.
  apply main_success_report; [vm_compute; discriminate|].
  vm_compute. reflexivity.
Defined.
